(** * K-means clustering of restaurants (src/utils/clustering.ts)

    A shallow embedding of [kMeansCluster] and of its helpers
    [euclideanDistance] and [getBounds], followed by the properties of the
    clustering engine.

    JavaScript numbers are IEEE 754 binary64 values: they are modelled by
    Rocq's primitive floats, whose operations are the same binary64
    operations.  Array indices, loop counters and cluster ids are natural
    numbers.  [Math.random] is an oracle: the [n]-th call of a run returns
    [rng n].

    The file also embeds the filters and selector options of the Dashboard
    component, the row conversion of [parseCSVData] and
    [convertGoogleSheetsURL] (src/utils/dataParser.ts).  Strings are
    sequences of 8-bit code units.  The rows are taken as Papa Parse
    delivers them, and the reading of a non-empty numeral by [parseFloat]
    is a parameter of the row conversion. *)

From Stdlib Require Import ZArith Lia String Ascii Floats Sorted DecimalString DecimalNat.
From stdpp Require Import base list sorting.

Local Open Scope Z_scope.
Local Open Scope nat_scope.

(** ** Data model (src/types/restaurant.ts) *)

Module Restaurant.
Record t : Type := mk {
  id : string;
  name : string;
  lat : float;
  lon : float;
  cuisine : option string;
  zone : option string;
  cluster : option nat
}.

(** The object spread [{ ...restaurant, cluster: i }]. *)
Definition with_cluster (i : nat) (r : t) : t :=
  mk (id r) (name r) (lat r) (lon r) (cuisine r) (zone r) (Some i).
End Restaurant.

Abbreviation Restaurant := Restaurant.t.

(** A position or a centroid, the TypeScript tuple [[number, number]]. *)
Definition Point : Type := float * float.

Module ClusterData.
Record t : Type := mk {
  id : nat;
  center : Point;
  restaurants : list Restaurant;
  color : string
}.
End ClusterData.

Abbreviation ClusterData := ClusterData.t.

(** How a call ends.  The body of [kMeansCluster] has no [throw] statement,
    so the only error kind the engine's contract names is never produced. *)
Inductive ErrorKind : Type := InvalidParameter.

Inductive completion (A : Type) : Type :=
  | Normal (v : A)
  | Throw (e : ErrorKind).
Arguments Normal {A} v.
Arguments Throw {A} e.

(** ** Array and Math primitives used by the source *)

(** [Array.prototype.filter] with the [(element, index)] callback. *)
Fixpoint filter_from {A : Type} (f : A -> nat -> bool) (idx : nat) (l : list A) : list A :=
  match l with
  | [] => []
  | x :: l' =>
      if f x idx then x :: filter_from f (S idx) l' else filter_from f (S idx) l'
  end.

Definition Array_filter {A : Type} (f : A -> nat -> bool) (l : list A) : list A :=
  filter_from f 0 l.

(** [Array.prototype.every] with the [(element, index)] callback. *)
Fixpoint every_from {A : Type} (f : A -> nat -> bool) (idx : nat) (l : list A) : bool :=
  match l with
  | [] => true
  | x :: l' => if f x idx then every_from f (S idx) l' else false
  end.

Definition Array_every {A : Type} (f : A -> nat -> bool) (l : list A) : bool :=
  every_from f 0 l.

(** [arr[idx] === i] on an array of numbers: an index out of range reads
    [undefined], which is not strictly equal to a number. *)
Definition index_is (arr : list nat) (idx i : nat) : bool :=
  match arr !! idx with
  | Some v => Nat.eqb v i
  | None => false
  end.

(** The array length as a JavaScript number. *)
Definition number_of_nat (n : nat) : float :=
  PrimFloat.of_uint63 (Uint63.of_Z (Z.of_nat n)).

Definition is_neg_zero (x : float) : bool :=
  PrimFloat.is_zero x && PrimFloat.get_sign x.

Definition is_pos_zero (x : float) : bool :=
  PrimFloat.is_zero x && negb (PrimFloat.get_sign x).

(** [Math.min(...xs)]: starts from [+Infinity], any NaN argument makes the
    result NaN, and [-0] is below [+0]. *)
Definition Math_min (xs : list float) : float :=
  fold_left
    (fun lowest x =>
       if PrimFloat.is_nan lowest || PrimFloat.is_nan x then PrimFloat.nan
       else if is_neg_zero x && is_pos_zero lowest then x
       else if PrimFloat.ltb x lowest then x
       else lowest)
    xs PrimFloat.infinity.

(** [Math.max(...xs)]: starts from [-Infinity], any NaN argument makes the
    result NaN, and [+0] is above [-0]. *)
Definition Math_max (xs : list float) : float :=
  fold_left
    (fun highest x =>
       if PrimFloat.is_nan highest || PrimFloat.is_nan x then PrimFloat.nan
       else if is_pos_zero x && is_neg_zero highest then x
       else if PrimFloat.ltb highest x then x
       else highest)
    xs PrimFloat.neg_infinity.

(** ** The clustering engine (src/utils/clustering.ts) *)

Definition euclideanDistance (point1 point2 : Point) : float :=
  let dx := PrimFloat.sub (fst point1) (fst point2) in
  let dy := PrimFloat.sub (snd point1) (snd point2) in
  PrimFloat.sqrt (PrimFloat.add (PrimFloat.mul dx dx) (PrimFloat.mul dy dy)).

Record Bounds : Type := mkBounds {
  minLat : float;
  maxLat : float;
  minLon : float;
  maxLon : float
}.

Definition getBounds (restaurants : list Restaurant) : Bounds :=
  let lats := map Restaurant.lat restaurants in
  let lons := map Restaurant.lon restaurants in
  mkBounds (Math_min lats) (Math_max lats) (Math_min lons) (Math_max lons).

Definition maxIterations : nat := 100.

Definition clusterColors : list string :=
  ["#e91e63"; "#9c27b0"; "#3f51b5"; "#00bcd4"; "#4caf50"; "#ff9800"; "#f44336"]%string.

(** The number of rounds of [for (let i = 0; i < k; i++)]. *)
Definition rounds (k : Z) : nat := Z.to_nat k.

(** Lines 8-16: the [i]-th pushed centroid takes the draws [2i] and [2i+1]. *)
Definition initialCentroid (rng : nat -> float) (bounds : Bounds) (i : nat) : Point :=
  (PrimFloat.add (PrimFloat.mul (rng (2 * i)) (PrimFloat.sub (maxLat bounds) (minLat bounds)))
     (minLat bounds),
   PrimFloat.add (PrimFloat.mul (rng (2 * i + 1)) (PrimFloat.sub (maxLon bounds) (minLon bounds)))
     (minLon bounds)).

Definition initialCentroids (rng : nat -> float) (bounds : Bounds) (k : Z) : list Point :=
  map (initialCentroid rng bounds) (seq 0 (rounds k)).

(** Lines 27-39: the scan over [centroids] for one restaurant, entered at
    index [i] with the running [minDistance] and [assignedCluster]. *)
Fixpoint nearest_from (p : Point) (centroids : list Point) (i : nat)
    (minDistance : float) (assignedCluster : nat) : nat :=
  match centroids with
  | [] => assignedCluster
  | c :: rest =>
      let distance := euclideanDistance p c in
      if PrimFloat.ltb distance minDistance
      then nearest_from p rest (S i) distance i
      else nearest_from p rest (S i) minDistance assignedCluster
  end.

Definition nearest (p : Point) (centroids : list Point) : nat :=
  nearest_from p centroids 0 PrimFloat.infinity 0.

Definition position (r : Restaurant) : Point := (Restaurant.lat r, Restaurant.lon r).

(** Lines 23-41: one assignment step, [newAssignments]. *)
Definition assignStep (restaurants : list Restaurant) (centroids : list Point) : list nat :=
  map (fun r => nearest (position r) centroids) restaurants.

(** Line 44: [assignments.every((val, idx) => val === newAssignments[idx])]. *)
Definition converged (assignments newAssignments : list nat) : bool :=
  Array_every (fun val idx => index_is newAssignments idx val) assignments.

(** Line 52: [restaurants.filter((_, idx) => assignments[idx] === i)]. *)
Definition clusterMembers (restaurants : list Restaurant) (assignments : list nat) (i : nat)
    : list Restaurant :=
  Array_filter (fun _ idx => index_is assignments idx i) restaurants.

(** Lines 54-55: the mean of one coordinate, summed from [0] left to right. *)
Definition average (coord : Restaurant -> float) (rs : list Restaurant) : float :=
  PrimFloat.div (fold_left (fun sum r => PrimFloat.add sum (coord r)) rs PrimFloat.zero)
    (number_of_nat (length rs)).

Definition meanPosition (rs : list Restaurant) : Point :=
  (average Restaurant.lat rs, average Restaurant.lon rs).

(** Lines 52-57: the body of the update loop for index [i]. *)
Definition updateCentroid (restaurants : list Restaurant) (assignments : list nat)
    (centroids : list Point) (i : nat) : list Point :=
  let clusterRestaurants := clusterMembers restaurants assignments i in
  if Nat.ltb 0 (length clusterRestaurants)
  then <[i := meanPosition clusterRestaurants]> centroids
  else centroids.

(** Lines 51-58: the update step, in place on [centroids]. *)
Definition updateCentroids (restaurants : list Restaurant) (assignments : list nat)
    (k : Z) (centroids : list Point) : list Point :=
  fold_left (updateCentroid restaurants assignments) (seq 0 (rounds k)) centroids.

(** The variables the [while] loop changes.  [assignmentSteps] is a ghost
    counter of the assignment steps run; the source has no such variable. *)
Record LoopState : Type := mkLoopState {
  assignments : list nat;
  centroids : list Point;
  iterations : nat;
  assignmentSteps : nat
}.

(** Lines 22-61.  [remaining] is [maxIterations - iterations]: the loop test
    [iterations < maxIterations] fails exactly when it is [0]. *)
Fixpoint kMeansLoop (remaining : nat) (restaurants : list Restaurant) (k : Z)
    (st : LoopState) : LoopState :=
  match remaining with
  | 0 => st
  | S remaining' =>
      let newAssignments := assignStep restaurants (centroids st) in
      if converged (assignments st) newAssignments
      then mkLoopState (assignments st) (centroids st) (iterations st)
             (S (assignmentSteps st))
      else
        kMeansLoop remaining' restaurants k
          (mkLoopState newAssignments
             (updateCentroids restaurants newAssignments k (centroids st))
             (S (iterations st)) (S (assignmentSteps st)))
  end.

(** Line 18 and the centroids handed to the loop. *)
Definition initialState (restaurants : list Restaurant) (centroids0 : list Point) : LoopState :=
  mkLoopState (replicate (length restaurants) 0) centroids0 0 0.

(** Lines 67-80: the round of the output loop for index [i]; the pushed
    record, or nothing.  [centroids[i]] is always in range there (the
    centroid array keeps the length [rounds k], see [finalState_wellFormed]);
    the default is never read. *)
Definition clusterAt (restaurants : list Restaurant) (st : LoopState) (i : nat)
    : list ClusterData :=
  let clusterRestaurants :=
    Array_filter (fun _ idx => index_is (assignments st) idx i)
      (map (Restaurant.with_cluster i) restaurants) in
  if Nat.ltb 0 (length clusterRestaurants)
  then [ClusterData.mk i
          (nth i (centroids st) (PrimFloat.nan, PrimFloat.nan))
          clusterRestaurants
          (nth (i mod length clusterColors) clusterColors EmptyString)]
  else [].

Definition assemble (restaurants : list Restaurant) (k : Z) (st : LoopState)
    : list ClusterData :=
  flat_map (clusterAt restaurants st) (seq 0 (rounds k)).

(** The loop of a call, from the given initial centroids. *)
Definition runLoop (restaurants : list Restaurant) (k : Z) (centroids0 : list Point)
    : LoopState :=
  kMeansLoop maxIterations restaurants k (initialState restaurants centroids0).

(** The state at the end of the [while] loop of [kMeansCluster]. *)
Definition finalState (rng : nat -> float) (restaurants : list Restaurant) (k : Z)
    : LoopState :=
  runLoop restaurants k (initialCentroids rng (getBounds restaurants) k).

Definition kMeansCluster (rng : nat -> float) (restaurants : list Restaurant) (k : Z)
    : list ClusterData :=
  if Nat.eqb (length restaurants) 0 then []
  else assemble restaurants k (finalState rng restaurants k).

(** The call with the way it ends: always a normal return. *)
Definition kMeansCluster_completion (rng : nat -> float) (restaurants : list Restaurant)
    (k : Z) : completion (list ClusterData) :=
  Normal (kMeansCluster rng restaurants k).

(** ** Sample inputs *)

Definition place (i : string) (la lo : float) : Restaurant :=
  Restaurant.mk i i la lo None None None.

Definition twoPlaces : list Restaurant :=
  [place "a" 0%float 0%float; place "b" 10%float 10%float].

Definition constantDraws (x : float) : nat -> float := fun _ => x.

Definition listDraws (xs : list float) : nat -> float :=
  fun n => nth n xs PrimFloat.zero.

(** ** Dashboard filters and options (Dashboard component) *)

(** JavaScript truthiness of a [string | undefined] value: [undefined] and
    the empty string are falsy. *)
Definition truthy (v : option string) : bool :=
  match v with
  | Some s => negb (String.eqb s EmptyString)
  | None => false
  end.

(** [value === selected] for a [string | undefined] value and a string. *)
Definition field_is (v : option string) (selected : string) : bool :=
  match v with
  | Some s => String.eqb s selected
  | None => false
  end.

(** Lines 43-49 of the Dashboard: the restaurants shown under the two
    selections; ['all'] selects everything. *)
Definition filteredRestaurants (restaurants : list Restaurant)
    (selectedCuisine selectedZone : string) : list Restaurant :=
  Array_filter
    (fun restaurant _ =>
       let cuisineMatch :=
         String.eqb selectedCuisine "all"
         || field_is (Restaurant.cuisine restaurant) selectedCuisine in
       let zoneMatch :=
         String.eqb selectedZone "all"
         || field_is (Restaurant.zone restaurant) selectedZone in
       cuisineMatch && zoneMatch)
    restaurants.

(** Line 56. *)
Definition hasActiveFilters (selectedCuisine selectedZone : string) : bool :=
  negb (String.eqb selectedCuisine "all") || negb (String.eqb selectedZone "all").







(** ** CSV rows to restaurants (src/utils/dataParser.ts) *)

(** A row as Papa Parse gives it with [header: true]: column names with
    the text of their fields.  A column the row lacks reads [undefined]. *)
Definition Row : Type := list (string * string).

Fixpoint column (row : Row) (key : string) : option string :=
  match row with
  | [] => None
  | (k, v) :: row' => if String.eqb k key then Some v else column row' key
  end.

(** [a || b || ... || z]: the first truthy operand, else the last one. *)
Fixpoint orChain (operands : list (option string)) : option string :=
  match operands with
  | [] => None
  | [v] => v
  | v :: rest => if truthy v then v else orChain rest
  end.

(** [parseFloat]: [undefined] and the empty string give NaN; the reading
    of a non-empty string is the parameter [parseNumber]. *)
Definition parseFloat (parseNumber : string -> float) (v : option string) : float :=
  match v with
  | Some s => if String.eqb s EmptyString then PrimFloat.nan else parseNumber s
  | None => PrimFloat.nan
  end.

(** The decimal numeral of an index, as a template literal prints it. *)
Definition decimal (n : nat) : string := NilZero.string_of_uint (Nat.to_uint n).

Definition nameColumns : list string :=
  ["name"; "Name"; "restaurant_name"; "Restaurant"; "Restaurant Name"; "business_name";
   "Business Name"; "title"; "Title"]%string.

Definition latColumns : list string :=
  ["lat"; "latitude"; "Lat"; "Latitude"; "LAT"; "LATITUDE"; "latitude"; "Latitude";
   "y"; "Y"; "coord_lat"; "lat_coord"]%string.

Definition lonColumns : list string :=
  ["lon"; "lng"; "longitude"; "Lon"; "Lng"; "Longitude"; "LON"; "LNG"; "LONGITUDE";
   "longitude"; "Longitude"; "x"; "X"; "coord_lon"; "lng_coord"; "coord_lng"]%string.

Definition cuisineColumns : list string :=
  ["cuisine"; "Cuisine"; "type"; "Type"; "category"; "Category"; "food_type"; "Food Type";
   "cuisine_type"; "Cuisine Type"]%string.

Definition zoneColumns : list string :=
  ["zone"; "Zone"; "area"; "Area"; "district"; "District"; "region"; "Region";
   "neighborhood"; "Neighborhood"; "borough"; "Borough"]%string.

(** The errors the [complete] callback throws, with the values their
    messages interpolate (the list of column names of the second message
    is left out). *)
Inductive ParseError : Type :=
  | NoData
  | InvalidCoordinates (rowNumber : nat) (lat lon : float).

(** How the promise of [parseCSVData] settles. *)
Inductive Settled (A : Type) : Type :=
  | Resolved (v : A)
  | Rejected (e : ParseError).
Arguments Resolved {A} v.
Arguments Rejected {A} e.

(** [String(v)]. *)
Definition String_of (v : option string) : string :=
  match v with
  | Some s => s
  | None => "undefined"
  end.

(** [v ? String(v) : undefined]. *)
Definition optionalText (v : option string) : option string :=
  if truthy v then Some (String_of v) else None.

(** Lines 56-104: the callback of [result.data.map]. *)
Definition rowToRestaurant (parseNumber : string -> float) (row : Row) (index : nat)
    : Settled Restaurant :=
  let name :=
    orChain (map (column row) nameColumns
             ++ [Some ("Restaurant " ++ decimal (index + 1))%string]) in
  let lat := parseFloat parseNumber (orChain (map (column row) latColumns)) in
  let lon := parseFloat parseNumber (orChain (map (column row) lonColumns)) in
  let cuisine := orChain (map (column row) cuisineColumns) in
  let zone := orChain (map (column row) zoneColumns) in
  if PrimFloat.is_nan lat || PrimFloat.is_nan lon
  then Rejected (InvalidCoordinates (index + 1) lat lon)
  else Resolved (Restaurant.mk ("restaurant-" ++ decimal index)%string (String_of name)
                   lat lon (optionalText cuisine) (optionalText zone) None).

(** [result.data.map(...)] from [index] on: the first throw ends the map. *)
Fixpoint mapRows (parseNumber : string -> float) (rows : list Row) (index : nat)
    : Settled (list Restaurant) :=
  match rows with
  | [] => Resolved []
  | row :: rows' =>
      match rowToRestaurant parseNumber row index with
      | Rejected e => Rejected e
      | Resolved r =>
          match mapRows parseNumber rows' (S index) with
          | Rejected e => Rejected e
          | Resolved rs => Resolved (r :: rs)
          end
      end
  end.

(** Lines 46-112: the [complete] callback of [parseCSVData] on the rows
    [result.data]; what it resolves or rejects the promise with. *)
Definition parseCSVData_complete (parseNumber : string -> float) (data : list Row)
    : Settled (list Restaurant) :=
  if Nat.eqb (length data) 0 then Rejected NoData
  else mapRows parseNumber data 0.

(** The test of line 89 on a row, negated: both coordinates read as
    numbers. *)
Definition numericCoordinates (parseNumber : string -> float) (row : Row) : bool :=
  negb (PrimFloat.is_nan (parseFloat parseNumber (orChain (map (column row) latColumns)))
        || PrimFloat.is_nan (parseFloat parseNumber (orChain (map (column row) lonColumns)))).

(** A reading of numerals for the examples: two numerals, NaN otherwise. *)
Definition sampleParse (s : string) : float :=
  if String.eqb s "1" then 1%float
  else if String.eqb s "2.5" then 2.5%float
  else PrimFloat.nan.

Definition sampleRows : list Row :=
  [[("name", "A"); ("lat", "1"); ("lng", "2.5"); ("type", "Thai")];
   [("Title", ""); ("y", "2.5"); ("x", "1"); ("zone", "")]]%string.

Definition sampleBadRows : list Row :=
  [[("name", "A"); ("lat", "1"); ("lng", "2.5")];
   [("y", "2.5"); ("x", "abc")];
   [("name", "C")]]%string.

(** ** Google Sheets URLs (src/utils/dataParser.ts) *)

Definition sheetsPath : string := "docs.google.com/spreadsheets/d/".

(** The class [[a-zA-Z0-9-_]]. *)
Definition isIdChar (c : ascii) : bool :=
  let n := nat_of_ascii c in
  (Nat.leb 97 n && Nat.leb n 122) || (Nat.leb 65 n && Nat.leb n 90)
  || (Nat.leb 48 n && Nat.leb n 57) || Nat.eqb n 45 || Nat.eqb n 95.

(** The longest run of class characters at the start of [s]: what the
    greedy [+] takes. *)
Fixpoint takeId (s : string) : string :=
  match s with
  | EmptyString => EmptyString
  | String c s' => if isIdChar c then String c (takeId s') else EmptyString
  end.

(** The rest of [s] after the literal [p], when [s] starts with it. *)
Fixpoint afterLiteral (p s : string) : option string :=
  match p, s with
  | EmptyString, _ => Some s
  | String a p', String b s' => if Ascii.eqb a b then afterLiteral p' s' else None
  | String _ _, EmptyString => None
  end.

(** The match of [sheetsRegex] attempted at the start of [s]: the
    captured group. *)
Definition matchHere (s : string) : option string :=
  match afterLiteral sheetsPath s with
  | Some rest =>
      let spreadsheetId := takeId rest in
      if String.eqb spreadsheetId EmptyString then None else Some spreadsheetId
  | None => None
  end.

(** [url.match(sheetsRegex)]: the leftmost match, its captured group. *)
Fixpoint sheetsMatch (url : string) : option string :=
  match matchHere url with
  | Some spreadsheetId => Some spreadsheetId
  | None =>
      match url with
      | EmptyString => None
      | String _ rest => sheetsMatch rest
      end
  end.

Definition exportURL (spreadsheetId : string) : string :=
  ("https://docs.google.com/spreadsheets/d/" ++ spreadsheetId ++ "/export?format=csv")%string.

(** Lines 4-15. *)
Definition convertGoogleSheetsURL (url : string) : string :=
  match sheetsMatch url with
  | Some spreadsheetId => exportURL spreadsheetId
  | None => url
  end.

(** ** Predicates and tactics of the statements *)

(** Every restaurant has an assignment, the assignments are indices of
    centroids (index [0] when there is no centroid at all), and the
    centroid array keeps its length [K]. *)
Definition wellFormed (n K : nat) (st : LoopState) : Prop :=
  length (assignments st) = n /\
  Forall (fun a => a < Nat.max 1 K) (assignments st) /\
  length (centroids st) = K.

(** The input indices the final assignment gives to index [i]. *)
Definition memberIndices (n : nat) (a : list nat) (i : nat) : list nat :=
  filter (fun j => index_is a j i) (seq 0 n).

(** The member lists of the assembled clusters, read as lists of input
    indices. *)
Definition assembledIndices (n : nat) (a : list nat) (ks : list nat) : list (list nat) :=
  flat_map (fun i => if Nat.ltb 0 (length (memberIndices n a i))
                     then [memberIndices n a i] else []) ks.

(** [c] holds exactly the restaurants at the input indices [js], in that
    order, each tagged with the id of [c]. *)
Definition holdsIndices (rs : list Restaurant) (c : ClusterData) (js : list nat) : Prop :=
  StronglySorted lt js /\
  Forall2 (fun m j => exists r, rs !! j = Some r /\
                                m = Restaurant.with_cluster (ClusterData.id c) r)
    (ClusterData.restaurants c) js.

(** Two restaurants at the same position, by the [===] of numbers. *)
Definition samePosition (r1 r2 : Restaurant) : bool :=
  PrimFloat.eqb (Restaurant.lat r1) (Restaurant.lat r2) &&
  PrimFloat.eqb (Restaurant.lon r1) (Restaurant.lon r2).

Fixpoint pairwiseDistinct (rs : list Restaurant) : bool :=
  match rs with
  | [] => true
  | r :: rs' => forallb (fun r' => negb (samePosition r r')) rs' && pairwiseDistinct rs'
  end.

Definition sampleDraws : nat -> float :=
  listDraws [0%float; 0.75%float; 0.5%float; 0.5%float].

(** Case analysis on IEEE 754 values and on the comparisons of their
    exponents and mantissas. *)
Ltac sf_compare_cases :=
  repeat match goal with
    | H : context [Pos.compare_cont Eq ?a ?b] |- _ =>
        change (Pos.compare_cont Eq a b) with (Pos.compare a b) in H
    | |- context [Pos.compare_cont Eq ?a ?b] =>
        change (Pos.compare_cont Eq a b) with (Pos.compare a b)
    end;
  repeat match goal with
    | H : context [Z.compare ?a ?b] |- _ => destruct (Z.compare_spec a b); simpl in *; subst
    | |- context [Z.compare ?a ?b] => destruct (Z.compare_spec a b); simpl in *; subst
    end;
  repeat match goal with
    | H : context [Pos.compare ?a ?b] |- _ => destruct (Pos.compare_spec a b); simpl in *; subst
    | |- context [Pos.compare ?a ?b] => destruct (Pos.compare_spec a b); simpl in *; subst
    end;
  try congruence; try lia.

Ltac sf_cases :=
  repeat match goal with
    | x : spec_float |- _ => destruct x as [[|]|[|]| |[|] ? ?]
    end;
  simpl in *; try congruence; sf_compare_cases.

(** * Properties *)

(** ** Array helpers *)

Section ArrayFacts.
Context {A : Type}.
Implicit Types (l pre : list A) (g : nat -> bool).

(** A filter whose callback reads the index alone keeps the elements at
    the indices it accepts, in order. *)
Lemma filter_from_indices g pre l :
  Forall2 (fun x j => (pre ++ l) !! j = Some x)
    (filter_from (fun _ idx => g idx) (length pre) l)
    (filter (fun j => g j) (seq (length pre) (length l))).
Proof.
  revert pre. induction l as [|x l IH]; intros pre; simpl.
  - constructor.
  - specialize (IH (pre ++ [x])).
    rewrite length_app, Nat.add_1_r, <- app_assoc in IH. simpl in IH.
    rewrite filter_cons. destruct (g (length pre)) eqn:Hg.
    + rewrite decide_True by exact I.
      constructor; [|exact IH].
      rewrite lookup_app_r, Nat.sub_diag by lia. reflexivity.
    + rewrite decide_False by (intros []). exact IH.
Qed.

Lemma Array_filter_indices g l :
  Forall2 (fun x j => l !! j = Some x)
    (Array_filter (fun _ idx => g idx) l)
    (filter (fun j => g j) (seq 0 (length l))).
Proof. exact (filter_from_indices g [] l). Qed.

Lemma filter_from_all (f : A -> nat -> bool) s l :
  (forall x j, s <= j < s + length l -> f x j = true) -> filter_from f s l = l.
Proof.
  revert s. induction l as [|x l IH]; intros s Hf; simpl; [done|].
  rewrite Hf by (simpl; lia). f_equal. apply IH.
  intros y j Hj. apply Hf. simpl. lia.
Qed.

End ArrayFacts.

Lemma index_is_true (arr : list nat) (idx i : nat) :
  index_is arr idx i = true <-> arr !! idx = Some i.
Proof.
  unfold index_is. destruct (arr !! idx) as [v|]; [|split; discriminate].
  rewrite Nat.eqb_eq. split; congruence.
Qed.

Lemma StronglySorted_filter_seq (P : nat -> Prop) `{!forall j, Decision (P j)} s n :
  StronglySorted lt (filter P (seq s n)).
Proof.
  revert s. induction n as [|n IH]; intros s; simpl; [constructor|].
  rewrite filter_cons. destruct (decide (P s)); [|apply IH].
  constructor; [apply IH|].
  apply Forall_forall. intros j Hj.
  apply list_elem_of_filter in Hj. destruct Hj as [_ Hj].
  apply elem_of_seq in Hj. lia.
Qed.

(** ** The assignment scan and the convergence test *)

Lemma nearest_from_range p cs i m a :
  nearest_from p cs i m a = a \/
  (i <= nearest_from p cs i m a /\ nearest_from p cs i m a < i + length cs).
Proof.
  revert i m a. induction cs as [|c cs IH]; intros i m a; simpl; [by left|].
  destruct (PrimFloat.ltb (euclideanDistance p c) m).
  - right. destruct (IH (S i) (euclideanDistance p c) i) as [->|?]; lia.
  - destruct (IH (S i) m a) as [->|?]; [by left|right; lia].
Qed.

Lemma nearest_bound p cs : nearest p cs < Nat.max 1 (length cs).
Proof.
  unfold nearest. destruct (nearest_from_range p cs 0 PrimFloat.infinity 0) as [->|?]; lia.
Qed.

Lemma length_assignStep rs cs : length (assignStep rs cs) = length rs.
Proof. unfold assignStep. apply length_map. Qed.

Lemma assignStep_bound rs cs :
  Forall (fun a => a < Nat.max 1 (length cs)) (assignStep rs cs).
Proof.
  unfold assignStep. induction rs as [|r rs IH]; simpl; constructor; auto using nearest_bound.
Qed.

(** With at most one centroid every restaurant is assigned index [0]. *)
Lemma assignStep_single rs cs :
  length cs <= 1 -> assignStep rs cs = replicate (length rs) 0.
Proof.
  intros Hcs. unfold assignStep. induction rs as [|r rs IH]; simpl; [done|].
  rewrite IH. f_equal. pose proof (nearest_bound (position r) cs). lia.
Qed.

Lemma every_from_same (pre l : list nat) :
  every_from (fun val idx => index_is (pre ++ l) idx val) (length pre) l = true.
Proof.
  revert pre. induction l as [|x l IH]; intros pre; simpl; [done|].
  replace (index_is (pre ++ x :: l) (length pre) x) with true.
  - specialize (IH (pre ++ [x])).
    rewrite length_app, Nat.add_1_r, <- app_assoc in IH. exact IH.
  - symmetry. apply index_is_true. rewrite lookup_app_r, Nat.sub_diag by lia. done.
Qed.

Lemma converged_same (a : list nat) : converged a a = true.
Proof. exact (every_from_same [] a). Qed.

(** ** The update step *)

Lemma length_updateCentroid rs a cs i :
  length (updateCentroid rs a cs i) = length cs.
Proof.
  unfold updateCentroid. destruct (Nat.ltb 0 _); [apply length_insert|done].
Qed.

Lemma length_fold_updateCentroid rs a ks cs :
  length (fold_left (updateCentroid rs a) ks cs) = length cs.
Proof.
  revert cs. induction ks as [|i ks IH]; intros cs; simpl; [done|].
  rewrite IH. apply length_updateCentroid.
Qed.

Lemma length_updateCentroids rs a k cs :
  length (updateCentroids rs a k cs) = length cs.
Proof. apply length_fold_updateCentroid. Qed.

(** A round of the update loop leaves the other indices alone. *)
Lemma fold_updateCentroid_other rs a ks cs i :
  i ∉ ks -> fold_left (updateCentroid rs a) ks cs !! i = cs !! i.
Proof.
  revert cs. induction ks as [|j ks IH]; intros cs Hi; simpl; [done|].
  apply not_elem_of_cons in Hi as [Hij Hi]. rewrite IH by done.
  unfold updateCentroid. destruct (Nat.ltb 0 _); [|done].
  apply list_lookup_insert_ne. congruence.
Qed.

Lemma fold_updateCentroid_at rs a ks cs i :
  NoDup ks -> i ∈ ks -> i < length cs ->
  fold_left (updateCentroid rs a) ks cs !! i =
    if Nat.ltb 0 (length (clusterMembers rs a i))
    then Some (meanPosition (clusterMembers rs a i))
    else cs !! i.
Proof.
  revert cs. induction ks as [|j ks IH]; intros cs Hnd Hi Hlen; [by apply elem_of_nil in Hi|].
  apply NoDup_cons in Hnd as [Hj Hnd]. simpl.
  destruct (decide (i = j)) as [->|Hne].
  - rewrite fold_updateCentroid_other by done.
    unfold updateCentroid. destruct (Nat.ltb 0 _); [|done].
    by apply list_lookup_insert_eq.
  - apply elem_of_cons in Hi as [?|Hi]; [done|].
    rewrite IH by (rewrite ?length_updateCentroid; done).
    destruct (Nat.ltb 0 (length (clusterMembers rs a i))); [done|].
    unfold updateCentroid. destruct (Nat.ltb 0 _); [|done].
    apply list_lookup_insert_ne. congruence.
Qed.

(** ** Invariants of the loop *)

Lemma initialState_wellFormed rs cs0 :
  wellFormed (length rs) (length cs0) (initialState rs cs0).
Proof.
  unfold wellFormed, initialState; simpl. split; [apply length_replicate|].
  split; [|done]. apply Forall_replicate. lia.
Qed.

Lemma kMeansLoop_wellFormed remaining rs k K st :
  wellFormed (length rs) K st -> wellFormed (length rs) K (kMeansLoop remaining rs k st).
Proof.
  revert st. induction remaining as [|remaining IH]; intros st Hst; simpl; [done|].
  destruct Hst as (Hlen & Hbound & HK).
  destruct (converged _ _); [done|].
  apply IH. unfold wellFormed; simpl.
  rewrite length_assignStep, length_updateCentroids. split; [done|]. split; [|done].
  rewrite <- HK. apply assignStep_bound.
Qed.

Lemma runLoop_wellFormed rs k cs0 :
  wellFormed (length rs) (length cs0) (runLoop rs k cs0).
Proof. apply kMeansLoop_wellFormed, initialState_wellFormed. Qed.

Lemma length_initialCentroids rng b k : length (initialCentroids rng b k) = rounds k.
Proof. unfold initialCentroids. rewrite length_map. apply length_seq. Qed.

Lemma finalState_wellFormed rng rs k :
  wellFormed (length rs) (rounds k) (finalState rng rs k).
Proof.
  unfold finalState.
  rewrite <- (length_initialCentroids rng (getBounds rs) k) at 1.
  apply runLoop_wellFormed.
Qed.

(** The loop counters grow by at most one per remaining round. *)
Lemma kMeansLoop_counters remaining rs k st :
  iterations (kMeansLoop remaining rs k st) <= iterations st + remaining /\
  assignmentSteps (kMeansLoop remaining rs k st) <= assignmentSteps st + remaining.
Proof.
  revert st. induction remaining as [|remaining IH]; intros st; simpl; [lia|].
  destruct (converged _ _); simpl; [lia|].
  specialize (IH (mkLoopState (assignStep rs (centroids st))
    (updateCentroids rs (assignStep rs (centroids st)) k (centroids st))
    (S (iterations st)) (S (assignmentSteps st)))).
  simpl in IH. lia.
Qed.

(** The two exits of the loop: the test [iterations < maxIterations] fails
    after all the remaining rounds, or the convergence test breaks out. *)
Lemma kMeansLoop_exit remaining rs k st :
  iterations (kMeansLoop remaining rs k st) = iterations st + remaining \/
  converged (assignments (kMeansLoop remaining rs k st))
    (assignStep rs (centroids (kMeansLoop remaining rs k st))) = true.
Proof.
  revert st. induction remaining as [|remaining IH]; intros st; [left; simpl; lia|].
  cbn [kMeansLoop]. destruct (converged _ _) eqn:E; [by right|].
  match goal with |- context [kMeansLoop remaining rs k ?st'] =>
    destruct (IH st') as [H|H]; [left; rewrite H; simpl; lia|by right] end.
Qed.

Lemma runLoop_exit rs k cs0 :
  iterations (runLoop rs k cs0) = maxIterations \/
  converged (assignments (runLoop rs k cs0))
    (assignStep rs (centroids (runLoop rs k cs0))) = true.
Proof. exact (kMeansLoop_exit maxIterations rs k (initialState rs cs0)). Qed.

Lemma runLoop_counters rs k cs0 :
  iterations (runLoop rs k cs0) <= maxIterations /\
  assignmentSteps (runLoop rs k cs0) <= maxIterations.
Proof. exact (kMeansLoop_counters maxIterations rs k (initialState rs cs0)). Qed.

(** A loop entered with the assignments the first step recomputes stops in
    its first round, before any update. *)
Lemma kMeansLoop_stops_at_once remaining rs k st :
  assignStep rs (centroids st) = assignments st ->
  assignments (kMeansLoop (S remaining) rs k st) = assignments st /\
  centroids (kMeansLoop (S remaining) rs k st) = centroids st /\
  iterations (kMeansLoop (S remaining) rs k st) = iterations st.
Proof.
  intros Heq. simpl. rewrite Heq, converged_same. done.
Qed.

Lemma runLoop_stops_at_once rs k cs0 :
  assignStep rs cs0 = replicate (length rs) 0 ->
  assignments (runLoop rs k cs0) = replicate (length rs) 0 /\
  centroids (runLoop rs k cs0) = cs0 /\
  iterations (runLoop rs k cs0) = 0.
Proof.
  intros Heq. unfold runLoop, maxIterations.
  exact (kMeansLoop_stops_at_once 99 rs k (initialState rs cs0) Heq).
Qed.

(** ** Output assembly *)

(** The members pushed for index [i] are the restaurants at
    [memberIndices], tagged with [i]. *)
Lemma taggedMembers_indices rs a i :
  Forall2 (fun m j => exists r, rs !! j = Some r /\ m = Restaurant.with_cluster i r)
    (Array_filter (fun _ idx => index_is a idx i) (map (Restaurant.with_cluster i) rs))
    (memberIndices (length rs) a i).
Proof.
  pose proof (Array_filter_indices (fun j => index_is a j i)
                (map (Restaurant.with_cluster i) rs)) as H.
  rewrite length_map in H. unfold memberIndices.
  eapply Forall2_impl; [exact H|]. simpl. intros m j Hj.
  change (map (Restaurant.with_cluster i) rs) with (Restaurant.with_cluster i <$> rs) in Hj.
  apply list_lookup_fmap_Some in Hj as (r & ? & ?). eauto.
Qed.

Lemma length_taggedMembers rs a i :
  length (Array_filter (fun _ idx => index_is a idx i) (map (Restaurant.with_cluster i) rs))
  = length (memberIndices (length rs) a i).
Proof. eapply Forall2_length, taggedMembers_indices. Qed.

Lemma memberIndices_sorted n a i : StronglySorted lt (memberIndices n a i).
Proof. apply StronglySorted_filter_seq. Qed.

Lemma elem_of_memberIndices n a i j :
  j ∈ memberIndices n a i <-> j < n /\ a !! j = Some i.
Proof.
  unfold memberIndices. rewrite list_elem_of_filter, elem_of_seq, Is_true_true, index_is_true.
  intuition lia.
Qed.

Lemma memberIndices_nonempty n a i :
  0 < length (memberIndices n a i) <-> exists j, j < n /\ a !! j = Some i.
Proof.
  split.
  - destruct (memberIndices n a i) as [|j l] eqn:E; simpl; [lia|]. intros _.
    exists j. apply elem_of_memberIndices. rewrite E. apply elem_of_cons; by left.
  - intros (j & Hj). apply elem_of_memberIndices in Hj.
    destruct (memberIndices n a i); [by apply elem_of_nil in Hj|simpl; lia].
Qed.

(** What a round of the output loop pushes. *)
Lemma clusterAt_cases rs st i :
  (clusterAt rs st i = [] /\ memberIndices (length rs) (assignments st) i = []) \/
  (exists c, clusterAt rs st i = [c] /\ ClusterData.id c = i /\
     0 < length (ClusterData.restaurants c) /\
     ClusterData.restaurants c =
       Array_filter (fun _ idx => index_is (assignments st) idx i)
         (map (Restaurant.with_cluster i) rs)).
Proof.
  unfold clusterAt. destruct (Nat.ltb 0 _) eqn:E.
  - right. apply Nat.ltb_lt in E. eexists. split; [reflexivity|]. simpl. done.
  - left. split; [done|]. apply Nat.ltb_ge in E.
    rewrite length_taggedMembers in E. destruct (memberIndices _ _ _); [done|simpl in E; lia].
Qed.

Lemma elem_of_flat_map_clusterAt rs st ks c :
  c ∈ flat_map (clusterAt rs st) ks <->
  exists i, i ∈ ks /\ clusterAt rs st i = [c].
Proof.
  induction ks as [|i ks IH]; simpl.
  - split; [intros H; by apply elem_of_nil in H|intros (i & H & _); by apply elem_of_nil in H].
  - rewrite elem_of_app, IH. split.
    + intros [Hc|(j & Hj & Hc)].
      * exists i. split; [apply elem_of_cons; by left|].
        destruct (clusterAt_cases rs st i) as [[E _]|(c' & E & _)]; rewrite E in Hc |- *.
        -- by apply elem_of_nil in Hc.
        -- apply list_elem_of_singleton in Hc. by subst.
      * exists j. split; [apply elem_of_cons; by right|done].
    + intros (j & Hj & Hc). apply elem_of_cons in Hj as [->|Hj].
      * left. rewrite Hc. apply list_elem_of_singleton. done.
      * right. eauto.
Qed.

Lemma assemble_ids rs st ks :
  map ClusterData.id (flat_map (clusterAt rs st) ks) =
  filter (fun i => 0 < length (memberIndices (length rs) (assignments st) i)) ks.
Proof.
  induction ks as [|i ks IH]; simpl; [done|].
  rewrite map_app, IH, filter_cons.
  destruct (clusterAt_cases rs st i) as [[E Em]|(c & E & Hid & Hlen & Hm)]; rewrite E; simpl.
  - rewrite decide_False; [done|]. rewrite Em. simpl. lia.
  - rewrite decide_True; [by rewrite Hid|].
    rewrite Hm, length_taggedMembers in Hlen. done.
Qed.

Lemma assemble_one rs st : assemble rs 1 st = clusterAt rs st 0.
Proof. unfold assemble. simpl. apply app_nil_r. Qed.

Lemma length_assemble rs k st : length (assemble rs k st) <= rounds k.
Proof.
  rewrite <- (length_map ClusterData.id). unfold assemble. rewrite assemble_ids.
  etransitivity; [apply length_filter|]. by rewrite length_seq.
Qed.

(** ** The buckets of an assignment partition the indices *)

Lemma concat_buckets (a : list nat) (K : nat) (l : list nat) :
  Forall (fun j => exists i, i < K /\ a !! j = Some i) l ->
  concat (map (fun i => filter (fun j => index_is a j i) l) (seq 0 K)) ≡ₚ l.
Proof.
  revert l. induction K as [|K IH]; intros l Hl.
  - destruct l as [|j l]; [done|].
    apply Forall_cons in Hl as [(i & ? & _) _]. lia.
  - rewrite seq_S, map_app, concat_app. simpl. rewrite app_nil_r.
    pose (rest := filter (fun j => ~ index_is a j K) l).
    assert (Hrest : Forall (fun j => exists i, i < K /\ a !! j = Some i) rest).
    { apply Forall_forall. intros j Hj. apply list_elem_of_filter in Hj as [Hn Hj].
      rewrite Forall_forall in Hl. destruct (Hl j Hj) as (i & Hi & Ha).
      exists i. split; [|done]. destruct (decide (i = K)) as [->|]; [|lia].
      exfalso. apply Hn. apply Is_true_true, index_is_true. done. }
    specialize (IH rest Hrest).
    assert (Hsame : map (fun i => filter (fun j => index_is a j i) l) (seq 0 K) =
                    map (fun i => filter (fun j => index_is a j i) rest) (seq 0 K)).
    { apply map_ext_in. intros i Hi. apply in_seq in Hi. unfold rest.
      rewrite list_filter_filter. apply list_filter_iff. intros j.
      rewrite !Is_true_true, !index_is_true. split; [|tauto].
      intros Hj. split; [done|]. rewrite Hj. intros [=]. lia. }
    rewrite Hsame, IH. unfold rest. rewrite Permutation_app_comm.
    apply filter_app_complement.
Qed.

Lemma concat_nonempty_buckets (B : nat -> list nat) (ks : list nat) :
  concat (flat_map (fun i => if Nat.ltb 0 (length (B i)) then [B i] else []) ks)
  = concat (map B ks).
Proof.
  induction ks as [|i ks IH]; simpl; [done|].
  rewrite concat_app, IH. f_equal.
  destruct (B i); simpl; [done|]. by rewrite app_nil_r.
Qed.

Lemma assemble_holdsIndices rs st ks :
  Forall2 (holdsIndices rs) (flat_map (clusterAt rs st) ks)
    (assembledIndices (length rs) (assignments st) ks).
Proof.
  induction ks as [|i ks IH]; simpl; [constructor|].
  apply Forall2_app; [|exact IH].
  destruct (clusterAt_cases rs st i) as [[E Em]|(c & E & Hid & Hlen & Hm)]; rewrite E.
  - rewrite Em. simpl. constructor.
  - rewrite Hm, length_taggedMembers in Hlen.
    apply Nat.ltb_lt in Hlen. rewrite Hlen. constructor; [|constructor].
    split; [apply memberIndices_sorted|]. rewrite Hm, Hid. apply taggedMembers_indices.
Qed.

Lemma assembledIndices_partition n K a :
  length a = n -> Forall (fun v => v < K) a ->
  concat (assembledIndices n a (seq 0 K)) ≡ₚ seq 0 n.
Proof.
  intros Hlen Hbound. unfold assembledIndices.
  rewrite (concat_nonempty_buckets (memberIndices n a)).
  apply concat_buckets. apply Forall_forall. intros j Hj.
  apply elem_of_seq in Hj. destruct (lookup_lt_is_Some_2 a j) as [i Hi]; [lia|].
  exists i. split; [|done]. rewrite Forall_forall in Hbound.
  apply Hbound. eapply list_elem_of_lookup_2. exact Hi.
Qed.

(** ** The order on JavaScript numbers *)

Lemma SFcompare_irrefl x : SFcompare x x <> Some Lt.
Proof. sf_cases. Qed.

Lemma SFcompare_lt_trans x y z :
  SFcompare x y = Some Lt -> SFcompare y z = Some Lt -> SFcompare x z = Some Lt.
Proof. intros Hxy Hyz. sf_cases. Qed.

Lemma SFcompare_not_lt_trans x y z :
  y <> S754_nan ->
  SFcompare x y <> Some Lt -> SFcompare y z <> Some Lt -> SFcompare x z <> Some Lt.
Proof. intros Hy Hxy Hyz. sf_cases. Qed.

Lemma SFcompare_total x y :
  x <> S754_nan -> y <> S754_nan ->
  SFcompare x y <> Some Lt -> SFcompare y x = Some Lt \/ SFcompare y x = Some Eq.
Proof. intros Hx Hy Hxy. sf_cases; auto. Qed.

Lemma SFcompare_infinity_l y : SFcompare (S754_infinity false) y <> Some Lt.
Proof. sf_cases. Qed.

Lemma ltb_true_spec x y :
  PrimFloat.ltb x y = true <-> SFcompare (Prim2SF x) (Prim2SF y) = Some Lt.
Proof.
  rewrite FloatAxioms.ltb_spec. unfold SFltb.
  destruct (SFcompare _ _) as [[| |]|]; split; congruence.
Qed.

Lemma ltb_false_spec x y :
  PrimFloat.ltb x y = false <-> SFcompare (Prim2SF x) (Prim2SF y) <> Some Lt.
Proof.
  rewrite <- ltb_true_spec. destruct (PrimFloat.ltb x y); split; congruence.
Qed.

Lemma leb_true_spec x y :
  PrimFloat.leb x y = true <->
  SFcompare (Prim2SF x) (Prim2SF y) = Some Lt \/ SFcompare (Prim2SF x) (Prim2SF y) = Some Eq.
Proof.
  rewrite FloatAxioms.leb_spec. unfold SFleb.
  destruct (SFcompare _ _) as [[| |]|]; split; (congruence || auto || intros [|]; congruence).
Qed.

Lemma is_nan_false_spec x : PrimFloat.is_nan x = false -> Prim2SF x <> S754_nan.
Proof.
  unfold PrimFloat.is_nan. rewrite FloatAxioms.eqb_spec. intros H Hx. rewrite Hx in H. discriminate.
Qed.

Lemma ltb_irrefl x : PrimFloat.ltb x x = false.
Proof. apply ltb_false_spec, SFcompare_irrefl. Qed.

Lemma ltb_trans x y z :
  PrimFloat.ltb x y = true -> PrimFloat.ltb y z = true -> PrimFloat.ltb x z = true.
Proof. rewrite !ltb_true_spec. apply SFcompare_lt_trans. Qed.

Lemma ltb_asym x y : PrimFloat.ltb x y = true -> PrimFloat.ltb y x = false.
Proof.
  intros Hxy. destruct (PrimFloat.ltb y x) eqn:Hyx; [|done].
  rewrite <- (ltb_irrefl x). symmetry. eapply ltb_trans; eassumption.
Qed.

Lemma ltb_false_trans x y z :
  PrimFloat.is_nan y = false ->
  PrimFloat.ltb x y = false -> PrimFloat.ltb y z = false -> PrimFloat.ltb x z = false.
Proof.
  intros Hy. rewrite !ltb_false_spec. apply SFcompare_not_lt_trans, is_nan_false_spec, Hy.
Qed.

Lemma leb_of_not_ltb x y :
  PrimFloat.is_nan x = false -> PrimFloat.is_nan y = false ->
  PrimFloat.ltb x y = false -> PrimFloat.leb y x = true.
Proof.
  intros Hx Hy. rewrite ltb_false_spec, leb_true_spec.
  apply SFcompare_total; by apply is_nan_false_spec.
Qed.

Lemma ltb_infinity_l x : PrimFloat.ltb PrimFloat.infinity x = false.
Proof. apply ltb_false_spec. exact (SFcompare_infinity_l (Prim2SF x)). Qed.

(** ** The scan finds the first centroid at the least distance *)

(** The scan ends with a running minimum [m'] that no distance is below.
    Either nothing replaced the entry state, or the result is an index of
    the scanned part whose distance is [m'], strictly below the entry
    minimum and strictly below every earlier distance that is a number. *)
Lemma nearest_from_scan p cs i m a :
  exists m',
    (forall j c, cs !! j = Some c -> PrimFloat.ltb (euclideanDistance p c) m' = false) /\
    ((m' = m /\ nearest_from p cs i m a = a) \/
     (PrimFloat.ltb m' m = true /\ i <= nearest_from p cs i m a /\
      (exists c, cs !! (nearest_from p cs i m a - i) = Some c /\ euclideanDistance p c = m') /\
      forall j c, cs !! j = Some c -> j < nearest_from p cs i m a - i ->
        PrimFloat.is_nan (euclideanDistance p c) = false ->
        PrimFloat.ltb m' (euclideanDistance p c) = true)).
Proof.
  revert i m a. induction cs as [|c0 cs IH]; intros i m a; simpl.
  - exists m. split; [intros j c H; by rewrite lookup_nil in H|by left].
  - destruct (PrimFloat.ltb (euclideanDistance p c0) m) eqn:Hlt.
    + destruct (IH (S i) (euclideanDistance p c0) i) as (m' & Hmin & Hres).
      exists m'. destruct Hres as [[-> Hr]|(Hlt' & Hle & (c & Hc & Hd) & Hearlier)].
      * rewrite Hr. split.
        -- intros [|j] c Hc; simpl in Hc; [injection Hc as <-; apply ltb_irrefl|eauto].
        -- right. split; [done|]. split; [done|]. rewrite Nat.sub_diag. split; [by exists c0|].
           intros j c _ Hj. lia.
      * split.
        -- intros [|j] c' Hc'; simpl in Hc'; [injection Hc' as <-; by apply ltb_asym|eauto].
        -- right. split; [eapply ltb_trans; eassumption|]. split; [lia|].
           replace (nearest_from p cs (S i) (euclideanDistance p c0) i - i)
             with (S (nearest_from p cs (S i) (euclideanDistance p c0) i - S i)) by lia.
           split; [by exists c|].
           intros [|j] c' Hc' Hj Hnan; simpl in Hc'; [by injection Hc' as <-|].
           apply (Hearlier j); [done|lia|done].
    + destruct (IH (S i) m a) as (m' & Hmin & Hres).
      exists m'. destruct Hres as [[-> Hr]|(Hlt' & Hle & (c & Hc & Hd) & Hearlier)].
      * split; [|by left].
        intros [|j] c Hc; simpl in Hc; [by injection Hc as <-|eauto].
      * split.
        -- intros [|j] c' Hc'; simpl in Hc'; [injection Hc' as <-|eauto].
           destruct (PrimFloat.ltb (euclideanDistance p c0) m') eqn:E; [|done].
           rewrite <- Hlt. symmetry. eapply ltb_trans; eassumption.
        -- right. split; [done|]. split; [lia|].
           replace (nearest_from p cs (S i) m a - i)
             with (S (nearest_from p cs (S i) m a - S i)) by lia.
           split; [by exists c|].
           intros [|j] c' Hc' Hj Hnan; simpl in Hc'; [injection Hc' as <-|].
           ++ destruct (PrimFloat.ltb m' (euclideanDistance p c0)) eqn:E; [done|].
              rewrite <- Hlt'. symmetry.
              apply (ltb_false_trans m' (euclideanDistance p c0) m); done.
           ++ apply (Hearlier j); [done|lia|done].
Qed.

(** Whatever the numbers (NaN included), no centroid is strictly nearer
    than the one the scan returns. *)
Lemma nearest_not_beaten p cs c :
  cs !! nearest p cs = Some c ->
  forall j cj, cs !! j = Some cj ->
    PrimFloat.ltb (euclideanDistance p cj) (euclideanDistance p c) = false.
Proof.
  unfold nearest. intros Hc j cj Hj.
  destruct (nearest_from_scan p cs 0 PrimFloat.infinity 0)
    as (m' & Hmin & [[-> Hres]|(_ & _ & (c' & Hc' & Hd) & _)]).
  - apply (ltb_false_trans _ PrimFloat.infinity); [reflexivity|by eapply Hmin|].
    apply ltb_infinity_l.
  - rewrite Nat.sub_0_r in Hc'. rewrite Hc in Hc'. injection Hc' as <-.
    rewrite Hd. by eapply Hmin.
Qed.

(** ** Properties of the engine *)

(** The sample run: [k = 2], centroids drawn at (0, 7.5) and (5, 5).  The
    first assignment step moves both restaurants to index 1, one update
    follows, and the second assignment step finds nothing changed. *)
Example initialCentroids_sample :
  initialCentroids sampleDraws (getBounds twoPlaces) 2
  = [(0%float, 7.5%float); (5%float, 5%float)].
Proof. reflexivity. Qed.

Example finalState_sample :
  finalState sampleDraws twoPlaces 2
  = mkLoopState [1; 1] [(0%float, 7.5%float); (5%float, 5%float)] 1 2.
Proof. vm_compute. reflexivity. Qed.

Example getBounds_sample :
  getBounds twoPlaces = mkBounds 0%float 10%float 0%float 10%float.
Proof. reflexivity. Qed.

Lemma kMeansCluster_unfold rng rs k :
  rs <> [] -> kMeansCluster rng rs k = assemble rs k (finalState rng rs k).
Proof. intros Hrs. unfold kMeansCluster. destruct rs; [done|reflexivity]. Qed.

Lemma kMeansCluster_nil rng k : kMeansCluster rng [] k = [].
Proof. reflexivity. Qed.

Lemma rounds_nonpositive k : (k <= 0)%Z -> rounds k = 0.
Proof. unfold rounds. lia. Qed.

(** C1, as stated, fails: with [k = 0] and with [k = -1] the call on two
    restaurants returns the empty sequence; it does not end in an
    [InvalidParameter] failure. *)
Lemma kMeansCluster_nonpositive_k_not_rejected :
  kMeansCluster_completion (constantDraws 0.25%float) twoPlaces 0 = Normal [] /\
  kMeansCluster_completion (constantDraws 0.25%float) twoPlaces (-1) = Normal [] /\
  ~ (forall k, (k <= 0)%Z ->
       kMeansCluster_completion (constantDraws 0.25%float) twoPlaces k
       = Throw InvalidParameter).
Proof.
  split; [vm_compute; reflexivity|]. split; [vm_compute; reflexivity|].
  intros H. specialize (H 0%Z ltac:(lia)). discriminate H.
Qed.

(** C1, amended: for every input and every non-positive integer [k] the
    call returns the empty cluster sequence and raises no error; no
    centroid is drawn and the loop stops before any update step. *)
Theorem kMeansCluster_nonpositive_k rng rs k :
  (k <= 0)%Z ->
  kMeansCluster_completion rng rs k = Normal [] /\
  initialCentroids rng (getBounds rs) k = [] /\
  iterations (finalState rng rs k) = 0.
Proof.
  intros Hk. pose proof (rounds_nonpositive k Hk) as HK.
  assert (Hcs : initialCentroids rng (getBounds rs) k = []).
  { unfold initialCentroids. by rewrite HK. }
  split; [|split; [done|]].
  - unfold kMeansCluster_completion, kMeansCluster, assemble. rewrite HK. simpl.
    by destruct (Nat.eqb _ _).
  - unfold finalState. rewrite Hcs.
    apply runLoop_stops_at_once, assignStep_single. simpl. lia.
Qed.

(** The amended C1 at [k = -1] on the two sample restaurants. *)
Lemma kMeansCluster_nonpositive_k_witness :
  (-1 <= 0)%Z /\
  kMeansCluster_completion sampleDraws twoPlaces (-1) = Normal [] /\
  initialCentroids sampleDraws (getBounds twoPlaces) (-1) = [] /\
  iterations (finalState sampleDraws twoPlaces (-1)) = 0.
Proof.
  split; [lia|]. apply (kMeansCluster_nonpositive_k sampleDraws twoPlaces (-1)). lia.
Defined.

(** With [k = 1] the first assignment step reproduces the initial all-zero
    assignment, so the loop stops before any update: the single returned
    cluster holds every restaurant, and its centre is the centroid drawn at
    initialisation. *)
Lemma kMeansCluster_k1_initial_centroid rng rs :
  rs <> [] ->
  kMeansCluster rng rs 1 =
    [ClusterData.mk 0 (initialCentroid rng (getBounds rs) 0)
       (map (Restaurant.with_cluster 0) rs) "#e91e63"].
Proof.
  intros Hrs. rewrite kMeansCluster_unfold by done.
  destruct (runLoop_stops_at_once rs 1 (initialCentroids rng (getBounds rs) 1))
    as (Ha & Hc & _).
  { apply assignStep_single. rewrite length_initialCentroids. unfold rounds. lia. }
  rewrite assemble_one. unfold clusterAt, finalState. rewrite Ha, Hc.
  change (initialCentroids rng (getBounds rs) 1) with [initialCentroid rng (getBounds rs) 0].
  assert (Hall : Array_filter
            (fun (_ : Restaurant) idx => index_is (replicate (length rs) 0) idx 0)
            (map (Restaurant.with_cluster 0) rs) = map (Restaurant.with_cluster 0) rs).
  { apply filter_from_all. intros x j Hj. rewrite length_map in Hj.
    apply index_is_true, lookup_replicate_2. lia. }
  rewrite Hall, length_map.
  destruct rs; [done|]. reflexivity.
Qed.

(** C2 fails on the code.  On two restaurants at (0,0) and (10,10) with
    [k = 1] and both draws 0.25, the returned cluster holds both
    restaurants, but its centre is the drawn centroid (2.5, 2.5), not the
    mean (5, 5) of the positions. *)
Theorem kMeansCluster_k1_centre_not_mean :
  kMeansCluster (constantDraws 0.25%float) twoPlaces 1 =
    [ClusterData.mk 0 (2.5%float, 2.5%float)
       (map (Restaurant.with_cluster 0) twoPlaces) "#e91e63"] /\
  meanPosition twoPlaces = (5%float, 5%float) /\
  Forall (fun c => PrimFloat.eqb (fst (ClusterData.center c))
                     (fst (meanPosition twoPlaces)) = false)
    (kMeansCluster (constantDraws 0.25%float) twoPlaces 1).
Proof.
  assert (Hrun : kMeansCluster (constantDraws 0.25%float) twoPlaces 1 =
    [ClusterData.mk 0 (2.5%float, 2.5%float)
       (map (Restaurant.with_cluster 0) twoPlaces) "#e91e63"]) by (vm_compute; reflexivity).
  split; [exact Hrun|]. split; [vm_compute; reflexivity|].
  rewrite Hrun. repeat constructor.
Qed.

Lemma assembledIndices_nonempty n a ks :
  Forall (fun js => 0 < length js) (assembledIndices n a ks).
Proof.
  unfold assembledIndices. induction ks as [|i ks IH]; simpl; [constructor|].
  apply Forall_app. split; [|exact IH].
  destruct (Nat.ltb 0 _) eqn:E; [|constructor].
  apply Nat.ltb_lt in E. by repeat constructor.
Qed.

Lemma length_le_concat (ls : list (list nat)) :
  Forall (fun js => 0 < length js) ls -> length ls <= length (concat ls).
Proof.
  induction 1 as [|js ls Hjs _ IH]; simpl; [lia|]. rewrite length_app. lia.
Qed.

Lemma kMeansCluster_members_nonempty rng rs k :
  Forall (fun c => 0 < length (ClusterData.restaurants c)) (kMeansCluster rng rs k).
Proof.
  unfold kMeansCluster. destruct (Nat.eqb _ _); [constructor|].
  apply Forall_forall. intros c Hc.
  apply elem_of_flat_map_clusterAt in Hc as (i & _ & Hc).
  destruct (clusterAt_cases rs (finalState rng rs k) i) as [[E _]|(c' & E & _ & Hpos & _)];
    rewrite E in Hc; [done|]. by injection Hc as <-.
Qed.

Lemma finalState_indices_partition rng rs k :
  (0 < k)%Z ->
  concat (assembledIndices (length rs) (assignments (finalState rng rs k)) (seq 0 (rounds k)))
  ≡ₚ seq 0 (length rs).
Proof.
  intros Hk. destruct (finalState_wellFormed rng rs k) as (Hlen & Hbound & _).
  apply (assembledIndices_partition _ (rounds k)); [done|].
  eapply Forall_impl; [exact Hbound|]. simpl. unfold rounds. lia.
Qed.

(** The clusters of a call, with the input indices of their members. *)
Lemma kMeansCluster_indices rng rs k :
  Forall2 (holdsIndices rs) (kMeansCluster rng rs k)
    (if Nat.eqb (length rs) 0 then []
     else assembledIndices (length rs) (assignments (finalState rng rs k)) (seq 0 (rounds k))).
Proof.
  unfold kMeansCluster. destruct (Nat.eqb _ _); [constructor|].
  apply assemble_holdsIndices.
Qed.

(** C3: for a positive [k], the member lists of the returned clusters are
    strictly increasing lists of input indices (members in input order,
    each the input restaurant tagged with the cluster id), and together
    these lists hold every input index exactly once. *)
Theorem kMeansCluster_partition rng rs k :
  (0 < k)%Z ->
  exists idxs : list (list nat),
    Forall2 (holdsIndices rs) (kMeansCluster rng rs k) idxs /\
    concat idxs ≡ₚ seq 0 (length rs).
Proof.
  intros Hk. eexists. split; [apply kMeansCluster_indices|].
  destruct rs as [|r rs]; [done|]. cbn [length Nat.eqb].
  by apply (finalState_indices_partition rng (r :: rs) k).
Qed.

(** The partition of the sample run with [k = 2]. *)
Lemma kMeansCluster_partition_witness :
  (0 < 2)%Z /\
  exists idxs : list (list nat),
    Forall2 (holdsIndices twoPlaces) (kMeansCluster sampleDraws twoPlaces 2) idxs /\
    concat idxs ≡ₚ seq 0 (length twoPlaces).
Proof.
  split; [lia|]. apply (kMeansCluster_partition sampleDraws twoPlaces 2). lia.
Defined.

(** C4: every returned cluster has at least one member, and the returned
    ids are exactly the indices below [k] that the final assignment gives
    to some restaurant: an index without members is dropped. *)
Theorem kMeansCluster_clusters_nonempty rng rs k :
  Forall (fun c => 0 < length (ClusterData.restaurants c)) (kMeansCluster rng rs k) /\
  forall i,
    (exists c, c ∈ kMeansCluster rng rs k /\ ClusterData.id c = i) <->
    (i < rounds k /\ exists j, assignments (finalState rng rs k) !! j = Some i).
Proof.
  destruct (finalState_wellFormed rng rs k) as (Hlen & _ & _).
  destruct rs as [|r rs].
  - split; [constructor|]. intros i. rewrite kMeansCluster_nil. split.
    + intros (c & Hc & _). by apply elem_of_nil in Hc.
    + intros (_ & j & Hj). apply lookup_lt_Some in Hj. rewrite Hlen in Hj. simpl in Hj. lia.
  - rewrite kMeansCluster_unfold by done. unfold assemble.
    set (st := finalState rng (r :: rs) k) in *. split.
    + pose proof (kMeansCluster_members_nonempty rng (r :: rs) k) as H.
      by rewrite kMeansCluster_unfold in H.
    + intros i. split.
      * intros (c & Hc & Hid). apply elem_of_flat_map_clusterAt in Hc as (i' & Hi' & Hc).
        apply elem_of_seq in Hi'.
        destruct (clusterAt_cases (r :: rs) st i') as [[E _]|(c' & E & Hid' & Hpos & Hm)];
          rewrite E in Hc; [done|]. injection Hc as <-.
        assert (i' = i) as -> by congruence. split; [lia|].
        rewrite Hm, length_taggedMembers in Hpos.
        apply memberIndices_nonempty in Hpos as (j & _ & Hj). eauto.
      * intros (Hi & j & Hj).
        assert (Hpos : 0 < length (memberIndices (length (r :: rs)) (assignments st) i)).
        { apply memberIndices_nonempty. exists j. split; [|done].
          apply lookup_lt_Some in Hj. lia. }
        destruct (clusterAt_cases (r :: rs) st i) as [[_ E]|(c & E & Hid & _)].
        -- rewrite E in Hpos. simpl in Hpos. lia.
        -- exists c. split; [|done]. apply elem_of_flat_map_clusterAt.
           exists i. split; [apply elem_of_seq; lia|done].
Qed.

(** C5: from any initial centroids the loop is total and runs at most
    [maxIterations = 100] assignment steps and update steps; it ends on
    convergence or after exactly 100 updates, a loop that has used all its
    rounds hands back the state it holds, and the call returns normally
    with the clusters assembled from the final state. *)
Theorem kMeansCluster_bounded_iterations rng rs k cs0 :
  maxIterations = 100 /\
  assignmentSteps (runLoop rs k cs0) <= maxIterations /\
  iterations (runLoop rs k cs0) <= maxIterations /\
  (iterations (runLoop rs k cs0) = maxIterations \/
   converged (assignments (runLoop rs k cs0))
     (assignStep rs (centroids (runLoop rs k cs0))) = true) /\
  (forall st, kMeansLoop 0 rs k st = st) /\
  kMeansCluster_completion rng rs k =
    Normal (if Nat.eqb (length rs) 0 then [] else assemble rs k (finalState rng rs k)).
Proof.
  split; [reflexivity|].
  destruct (runLoop_counters rs k cs0) as [Hit Has].
  split; [done|]. split; [done|]. split; [apply runLoop_exit|]. split; done.
Qed.

(** C8: on the empty input the call returns the empty cluster sequence,
    without error, for every [k]. *)
Theorem kMeansCluster_empty_input rng k :
  kMeansCluster_completion rng [] k = Normal [].
Proof. reflexivity. Qed.

(** C10: the returned ids are strictly increasing and lie in [0, k). *)
Theorem kMeansCluster_ids_increasing rng rs k :
  StronglySorted lt (map ClusterData.id (kMeansCluster rng rs k)) /\
  Forall (fun c => (0 <= Z.of_nat (ClusterData.id c) < k)%Z) (kMeansCluster rng rs k).
Proof.
  destruct rs as [|r rs]; [split; constructor|].
  rewrite kMeansCluster_unfold by done. unfold assemble.
  pose proof (assemble_ids (r :: rs) (finalState rng (r :: rs) k) (seq 0 (rounds k))) as Hids.
  split.
  - rewrite Hids. apply StronglySorted_filter_seq.
  - apply Forall_forall. intros c Hc.
    apply (list_elem_of_fmap_2 ClusterData.id) in Hc.
    change (ClusterData.id c ∈ map ClusterData.id
              (flat_map (clusterAt (r :: rs) (finalState rng (r :: rs) k)) (seq 0 (rounds k))))
      in Hc.
    rewrite Hids in Hc. apply list_elem_of_filter in Hc as [_ Hin].
    apply elem_of_seq in Hin. unfold rounds in Hin. lia.
Qed.

(** C6: in an assignment step over at least one centroid, a restaurant
    whose distances to the centroids are all numbers is assigned an index
    [a] of a centroid at the least distance, and every centroid of a lower
    index is strictly farther: among centroids at the same least distance
    the lowest index is kept. *)
Theorem assignStep_nearest_lowest_index rs cs idx r :
  cs <> [] -> rs !! idx = Some r ->
  Forall (fun c => PrimFloat.is_nan (euclideanDistance (position r) c) = false) cs ->
  exists a c,
    assignStep rs cs !! idx = Some a /\ cs !! a = Some c /\
    (forall j cj, cs !! j = Some cj ->
       PrimFloat.leb (euclideanDistance (position r) c)
                     (euclideanDistance (position r) cj) = true) /\
    (forall j cj, cs !! j = Some cj -> j < a ->
       PrimFloat.ltb (euclideanDistance (position r) c)
                     (euclideanDistance (position r) cj) = true).
Proof.
  intros Hcs Hr Hnum. rewrite Forall_forall in Hnum.
  assert (Hnum' : forall j cj, cs !! j = Some cj ->
            PrimFloat.is_nan (euclideanDistance (position r) cj) = false).
  { intros j cj Hj. eapply Hnum, list_elem_of_lookup_2, Hj. }
  exists (nearest (position r) cs).
  assert (Ha : assignStep rs cs !! idx = Some (nearest (position r) cs)).
  { unfold assignStep. change (map ?f rs) with (f <$> rs).
    by rewrite list_lookup_fmap, Hr. }
  unfold nearest in *.
  destruct (nearest_from_scan (position r) cs 0 PrimFloat.infinity 0)
    as (m' & Hmin & [[-> Hres]|(Hlt & _ & (c & Hc & Hd) & Hearlier)]).
  - rewrite Hres in *. destruct cs as [|c0 cs']; [done|]. exists c0.
    split; [done|]. split; [done|]. split; [|intros j cj _ Hj; lia].
    intros j cj Hj. apply leb_of_not_ltb; [by eapply Hnum'|by apply (Hnum' 0)|].
    apply (ltb_false_trans _ PrimFloat.infinity); [reflexivity|by eapply Hmin|].
    apply ltb_infinity_l.
  - rewrite Nat.sub_0_r in Hc, Hearlier. exists c.
    split; [done|]. split; [done|]. subst m'. split.
    + intros j cj Hj. apply leb_of_not_ltb; [by eapply Hnum'|by eapply Hnum'|by eapply Hmin].
    + intros j cj Hj Hlow. apply (Hearlier j); [done|done|by eapply Hnum'].
Qed.

(** An assignment step with a tie: the restaurant at (10, 10) is as near
    to the centroid of index 0 as to the one of index 2. *)
Lemma assignStep_nearest_lowest_index_witness :
  exists a c,
    assignStep twoPlaces [(5%float, 5%float); (0%float, 7.5%float); (5%float, 5%float)] !! 1
      = Some a /\
    [(5%float, 5%float); (0%float, 7.5%float); (5%float, 5%float)] !! a = Some c /\
    (forall j cj,
       [(5%float, 5%float); (0%float, 7.5%float); (5%float, 5%float)] !! j = Some cj ->
       PrimFloat.leb (euclideanDistance (10%float, 10%float) c)
                     (euclideanDistance (10%float, 10%float) cj) = true) /\
    (forall j cj,
       [(5%float, 5%float); (0%float, 7.5%float); (5%float, 5%float)] !! j = Some cj ->
       j < a ->
       PrimFloat.ltb (euclideanDistance (10%float, 10%float) c)
                     (euclideanDistance (10%float, 10%float) cj) = true).
Proof.
  apply (assignStep_nearest_lowest_index twoPlaces
           [(5%float, 5%float); (0%float, 7.5%float); (5%float, 5%float)] 1
           (place "b" 10%float 10%float)).
  - discriminate.
  - reflexivity.
  - repeat constructor.
Defined.

(** On a tie the scan keeps the first of the equally near centroids. *)
Example nearest_tie_keeps_first :
  nearest (10%float, 10%float) [(5%float, 5%float); (0%float, 7.5%float); (5%float, 5%float)] = 0.
Proof. reflexivity. Qed.

(** C7, as stated, fails: two restaurants at distinct positions and
    [k = 2]; the draws put the centroids at (0, 7.5) and (5, 5), both
    restaurants are nearest to the second one, and the call returns one
    cluster of two members. *)
Lemma kMeansCluster_distinct_points_share_cluster :
  pairwiseDistinct twoPlaces = true /\
  (Z.of_nat (length twoPlaces) <= 2)%Z /\
  kMeansCluster sampleDraws twoPlaces 2 =
    [ClusterData.mk 1 (5%float, 5%float)
       (map (Restaurant.with_cluster 1) twoPlaces) "#9c27b0"] /\
  ~ Forall (fun c => length (ClusterData.restaurants c) = 1)
      (kMeansCluster sampleDraws twoPlaces 2).
Proof.
  assert (Hrun : kMeansCluster sampleDraws twoPlaces 2 =
    [ClusterData.mk 1 (5%float, 5%float)
       (map (Restaurant.with_cluster 1) twoPlaces) "#9c27b0"]) by (vm_compute; reflexivity).
  split; [reflexivity|]. split; [simpl; lia|]. split; [exact Hrun|].
  rewrite Hrun. intros H. apply Forall_cons in H as [H _]. simpl in H. discriminate H.
Qed.

(** C7, amended: for [n] restaurants at pairwise distinct positions and an
    integer [k >= n], the call returns at most [n] clusters, each with at
    least one member. *)
Theorem kMeansCluster_at_most_n_clusters rng rs k :
  pairwiseDistinct rs = true -> (Z.of_nat (length rs) <= k)%Z ->
  length (kMeansCluster rng rs k) <= length rs /\
  Forall (fun c => 0 < length (ClusterData.restaurants c)) (kMeansCluster rng rs k).
Proof.
  intros _ Hk. split; [|apply kMeansCluster_members_nonempty].
  destruct rs as [|r rs]; [simpl; lia|].
  rewrite (Forall2_length _ _ _ (kMeansCluster_indices rng (r :: rs) k)).
  cbn [length Nat.eqb].
  etransitivity; [apply length_le_concat, assembledIndices_nonempty|].
  rewrite (finalState_indices_partition rng (r :: rs) k) by (simpl in Hk; lia).
  by rewrite length_seq.
Qed.

(** The bound on the sample run: two distinct positions, [k = 2]. *)
Lemma kMeansCluster_at_most_n_clusters_witness :
  length (kMeansCluster sampleDraws twoPlaces 2) <= length twoPlaces /\
  Forall (fun c => 0 < length (ClusterData.restaurants c))
    (kMeansCluster sampleDraws twoPlaces 2).
Proof.
  apply (kMeansCluster_at_most_n_clusters sampleDraws twoPlaces 2).
  - reflexivity.
  - simpl. lia.
Defined.

(** C9: the update step keeps the centroid array at its length; a centroid
    whose index has no assigned restaurant keeps its position, and a
    centroid whose index (below [k]) has assigned restaurants becomes the
    mean position of these restaurants. *)
Theorem updateCentroids_keeps_empty rs a k cs :
  length (updateCentroids rs a k cs) = length cs /\
  forall i c, cs !! i = Some c ->
    (length (clusterMembers rs a i) = 0 -> updateCentroids rs a k cs !! i = Some c) /\
    (0 < length (clusterMembers rs a i) -> i < rounds k ->
       updateCentroids rs a k cs !! i = Some (meanPosition (clusterMembers rs a i))).
Proof.
  split; [apply length_updateCentroids|]. intros i c Hc. unfold updateCentroids.
  destruct (decide (i < rounds k)) as [Hi|Hi].
  - rewrite fold_updateCentroid_at;
      [|apply NoDup_seq|apply elem_of_seq; lia|by eapply lookup_lt_Some].
    split.
    + intros ->. done.
    + intros Hpos _. apply Nat.ltb_lt in Hpos. by rewrite Hpos.
  - rewrite fold_updateCentroid_other by (rewrite elem_of_seq; lia).
    split; [done|lia].
Qed.

(** An update where index 0 has no restaurant and index 1 has both. *)
Lemma updateCentroids_keeps_empty_witness :
  updateCentroids twoPlaces [1; 1] 2 [(0%float, 7.5%float); (1%float, 1%float)] !! 0
    = Some (0%float, 7.5%float) /\
  updateCentroids twoPlaces [1; 1] 2 [(0%float, 7.5%float); (1%float, 1%float)] !! 1
    = Some (meanPosition (clusterMembers twoPlaces [1; 1] 1)).
Proof.
  destruct (updateCentroids_keeps_empty twoPlaces [1; 1] 2
              [(0%float, 7.5%float); (1%float, 1%float)]) as [_ H].
  split.
  - apply (H 0 (0%float, 7.5%float)); reflexivity.
  - apply (H 1 (1%float, 1%float)); [reflexivity|vm_compute; lia|vm_compute; lia].
Defined.

(** * Further properties of the clustering engine *)

(** ** Filters by index commute with maps *)

Lemma map_filter_from {A B : Type} (f : A -> B) (g : nat -> bool) s (l : list A) :
  map f (filter_from (fun _ idx => g idx) s l) = filter_from (fun _ idx => g idx) s (map f l).
Proof.
  revert s. induction l as [|x l IH]; intros s; simpl; [done|].
  destruct (g s); simpl; by rewrite IH.
Qed.

Lemma taggedMembers_clusterMembers rs a i :
  Array_filter (fun _ idx => index_is a idx i) (map (Restaurant.with_cluster i) rs)
  = map (Restaurant.with_cluster i) (clusterMembers rs a i).
Proof.
  unfold clusterMembers, Array_filter.
  symmetry. apply (map_filter_from _ (fun idx => index_is a idx i)).
Qed.

Lemma fold_left_add_map {A : Type} (coord : A -> float) (l : list A) (z : float) :
  fold_left (fun sum r => PrimFloat.add sum (coord r)) l z
  = fold_left PrimFloat.add (map coord l) z.
Proof. revert z. induction l as [|x l IH]; intros z; simpl; [done|apply IH]. Qed.

(** The mean position reads the positions alone. *)
Lemma meanPosition_positions rs1 rs2 :
  map position rs1 = map position rs2 -> meanPosition rs1 = meanPosition rs2.
Proof.
  intros H.
  assert (Hlat : map Restaurant.lat rs1 = map Restaurant.lat rs2).
  { apply (f_equal (map fst)) in H. by rewrite !map_map in H. }
  assert (Hlon : map Restaurant.lon rs1 = map Restaurant.lon rs2).
  { apply (f_equal (map snd)) in H. by rewrite !map_map in H. }
  assert (Hlen : length rs1 = length rs2).
  { apply (f_equal length) in H. by rewrite !length_map in H. }
  unfold meanPosition, average.
  rewrite (fold_left_add_map Restaurant.lat rs1), (fold_left_add_map Restaurant.lat rs2),
    (fold_left_add_map Restaurant.lon rs1), (fold_left_add_map Restaurant.lon rs2).
  by rewrite Hlat, Hlon, Hlen.
Qed.

Lemma meanPosition_with_cluster i rs :
  meanPosition (map (Restaurant.with_cluster i) rs) = meanPosition rs.
Proof. apply meanPosition_positions. rewrite map_map. by apply map_ext. Qed.

(** ** Centres are means once an update has run *)

Lemma kMeansLoop_centres remaining rs k st :
  length (centroids st) = rounds k ->
  (0 < iterations st -> forall i, i < rounds k ->
     0 < length (clusterMembers rs (assignments st) i) ->
     centroids st !! i = Some (meanPosition (clusterMembers rs (assignments st) i))) ->
  0 < iterations (kMeansLoop remaining rs k st) -> forall i, i < rounds k ->
    0 < length (clusterMembers rs (assignments (kMeansLoop remaining rs k st)) i) ->
    centroids (kMeansLoop remaining rs k st) !! i =
      Some (meanPosition (clusterMembers rs (assignments (kMeansLoop remaining rs k st)) i)).
Proof.
  revert st. induction remaining as [|remaining IH]; intros st Hlen Hst; [exact Hst|].
  cbn [kMeansLoop]. destruct (converged _ _); [exact Hst|].
  apply IH; cbn [centroids assignments iterations].
  - by rewrite length_updateCentroids.
  - intros _ i Hi Hpos. unfold updateCentroids.
    rewrite fold_updateCentroid_at; [|apply NoDup_seq|apply elem_of_seq; lia|lia].
    apply Nat.ltb_lt in Hpos. by rewrite Hpos.
Qed.

Lemma finalState_centres rng rs k i :
  0 < iterations (finalState rng rs k) -> i < rounds k ->
  0 < length (clusterMembers rs (assignments (finalState rng rs k)) i) ->
  centroids (finalState rng rs k) !! i =
    Some (meanPosition (clusterMembers rs (assignments (finalState rng rs k)) i)).
Proof.
  unfold finalState, runLoop. intros Hit Hi Hpos.
  pose proof (kMeansLoop_centres maxIterations rs k
                (initialState rs (initialCentroids rng (getBounds rs) k))) as H.
  apply H; [apply length_initialCentroids|intros H0; cbn in H0; lia|done..].
Qed.

(** X1: when the loop has run at least one update step, the centre of
    every returned cluster is the mean position of the members of that
    cluster. *)
Theorem kMeansCluster_centres_are_means rng rs k :
  0 < iterations (finalState rng rs k) ->
  Forall (fun c => ClusterData.center c = meanPosition (ClusterData.restaurants c))
    (kMeansCluster rng rs k).
Proof.
  intros Hit. unfold kMeansCluster. destruct (Nat.eqb _ _); [constructor|].
  apply Forall_forall. intros c Hc.
  apply elem_of_flat_map_clusterAt in Hc as (i & Hi & Hc). apply elem_of_seq in Hi.
  unfold clusterAt in Hc. rewrite taggedMembers_clusterMembers in Hc.
  destruct (Nat.ltb 0 _) eqn:E in Hc; [|done]. injection Hc as <-.
  apply Nat.ltb_lt in E. rewrite length_map in E.
  cbn [ClusterData.center ClusterData.restaurants].
  rewrite meanPosition_with_cluster.
  pose proof (finalState_centres rng rs k i Hit ltac:(lia) E) as Hnth.
  eapply nth_lookup_Some. exact Hnth.
Qed.

(** The sample run makes one update. *)
Lemma kMeansCluster_centres_are_means_witness :
  Forall (fun c => ClusterData.center c = meanPosition (ClusterData.restaurants c))
    (kMeansCluster sampleDraws twoPlaces 2).
Proof.
  apply (kMeansCluster_centres_are_means sampleDraws twoPlaces 2).
  vm_compute. lia.
Defined.

(** ** A loop that stops early has reached a fixed point *)

Lemma every_from_lookup (pre a b : list nat) :
  every_from (fun val idx => index_is b idx val) (length pre) a = true ->
  forall j v, a !! j = Some v -> b !! (length pre + j) = Some v.
Proof.
  revert pre. induction a as [|x a IH]; intros pre H j v Hj; [by rewrite lookup_nil in Hj|].
  simpl in H. destruct (index_is b (length pre) x) eqn:E; [|done].
  destruct j as [|j]; simpl in Hj.
  - injection Hj as <-. rewrite Nat.add_0_r. by apply index_is_true.
  - specialize (IH (pre ++ [x])). rewrite length_app, Nat.add_1_r in IH.
    replace (length pre + S j) with (S (length pre) + j) by lia. by apply IH.
Qed.

Lemma converged_eq (a b : list nat) :
  converged a b = true -> length a = length b -> a = b.
Proof.
  intros H Hlen. apply list_eq. intros j.
  destruct (a !! j) as [v|] eqn:Hj.
  - symmetry. apply (every_from_lookup [] a b H j v Hj).
  - symmetry. apply lookup_ge_None. apply lookup_ge_None in Hj. lia.
Qed.

Lemma finalState_exit rng rs k :
  iterations (finalState rng rs k) = maxIterations \/
  converged (assignments (finalState rng rs k))
    (assignStep rs (centroids (finalState rng rs k))) = true.
Proof. exact (runLoop_exit rs k (initialCentroids rng (getBounds rs) k)). Qed.

(** X2: when the loop ends with fewer than [maxIterations] updates, the
    final assignment is a fixed point of the assignment step: every
    restaurant holds the index the scan finds for it among the final
    centroids. *)
Theorem kMeansCluster_converged_fixed_point rng rs k :
  iterations (finalState rng rs k) < maxIterations ->
  assignStep rs (centroids (finalState rng rs k)) = assignments (finalState rng rs k).
Proof.
  intros Hit.
  destruct (finalState_exit rng rs k) as [H|H]; [lia|].
  destruct (finalState_wellFormed rng rs k) as (Hlen & _ & _).
  symmetry. apply converged_eq; [exact H|].
  by rewrite length_assignStep, Hlen.
Qed.

Lemma kMeansCluster_converged_fixed_point_witness :
  assignStep twoPlaces (centroids (finalState sampleDraws twoPlaces 2))
  = assignments (finalState sampleDraws twoPlaces 2).
Proof.
  apply (kMeansCluster_converged_fixed_point sampleDraws twoPlaces 2).
  vm_compute. lia.
Defined.

(** ** Sizes and number of the clusters *)

Lemma holdsIndices_lengths rs out idxs :
  Forall2 (holdsIndices rs) out idxs ->
  map (fun c => length (ClusterData.restaurants c)) out = map length idxs.
Proof.
  induction 1 as [|c js out idxs [_ H] _ IH]; simpl; [done|].
  rewrite IH. f_equal. eapply Forall2_length, H.
Qed.

Lemma list_sum_map_length (ls : list (list nat)) :
  list_sum (map length ls) = length (concat ls).
Proof. induction ls as [|l ls IH]; simpl; [done|]. rewrite length_app. lia. Qed.

(** X3: for a positive [k] the sizes of the returned clusters add up to
    the number of restaurants, there are at most [k] clusters, and a
    non-empty input gives at least one cluster. *)
Theorem kMeansCluster_sizes rng rs k :
  (0 < k)%Z ->
  list_sum (map (fun c => length (ClusterData.restaurants c)) (kMeansCluster rng rs k))
    = length rs /\
  (Z.of_nat (length (kMeansCluster rng rs k)) <= k)%Z /\
  (rs <> [] -> kMeansCluster rng rs k <> []).
Proof.
  intros Hk.
  assert (Hsum : list_sum (map (fun c => length (ClusterData.restaurants c))
                   (kMeansCluster rng rs k)) = length rs).
  { rewrite (holdsIndices_lengths _ _ _ (kMeansCluster_indices rng rs k)).
    rewrite list_sum_map_length. destruct rs as [|r rs]; [done|]. cbn [length Nat.eqb].
    rewrite (finalState_indices_partition rng (r :: rs) k Hk). by rewrite length_seq. }
  split; [exact Hsum|]. split.
  - unfold kMeansCluster. destruct (Nat.eqb _ _); [simpl; lia|].
    pose proof (length_assemble rs k (finalState rng rs k)). unfold rounds in *. lia.
  - intros Hrs Hout. rewrite Hout in Hsum. destruct rs; [done|]. simpl in Hsum. lia.
Qed.

Lemma kMeansCluster_sizes_witness :
  list_sum (map (fun c => length (ClusterData.restaurants c))
              (kMeansCluster sampleDraws twoPlaces 2)) = length twoPlaces /\
  (Z.of_nat (length (kMeansCluster sampleDraws twoPlaces 2)) <= 2)%Z /\
  (twoPlaces <> [] -> kMeansCluster sampleDraws twoPlaces 2 <> []).
Proof. apply (kMeansCluster_sizes sampleDraws twoPlaces 2). lia. Defined.

(** ** Colours *)

Lemma clusterColors_NoDup : NoDup clusterColors.
Proof.
  unfold clusterColors.
  repeat (apply NoDup_cons; split;
          [rewrite ?not_elem_of_cons; repeat split; try discriminate; apply not_elem_of_nil|]).
  apply NoDup_nil_2.
Qed.

Lemma kMeansCluster_elem rng rs k c :
  c ∈ kMeansCluster rng rs k ->
  ClusterData.id c < rounds k /\
  ClusterData.color c =
    nth (ClusterData.id c mod length clusterColors) clusterColors EmptyString.
Proof.
  unfold kMeansCluster. destruct (Nat.eqb _ _); [intros H; by apply elem_of_nil in H|].
  intros Hc. apply elem_of_flat_map_clusterAt in Hc as (i & Hi & Hc).
  apply elem_of_seq in Hi. unfold clusterAt in Hc.
  destruct (Nat.ltb 0 _) in Hc; [|done]. injection Hc as <-. simpl. split; [lia|done].
Qed.

(** X4: every returned cluster takes its colour from the palette, at the
    position of its id modulo the palette length; with [k] at most that
    length (7) no two returned clusters share a colour. *)
Theorem kMeansCluster_colours rng rs k :
  Forall (fun c => clusterColors !! (ClusterData.id c mod 7) = Some (ClusterData.color c))
    (kMeansCluster rng rs k) /\
  ((k <= 7)%Z -> NoDup (map ClusterData.color (kMeansCluster rng rs k))).
Proof.
  assert (Hlook : forall c, c ∈ kMeansCluster rng rs k ->
            clusterColors !! (ClusterData.id c mod 7) = Some (ClusterData.color c)).
  { intros c Hc. apply kMeansCluster_elem in Hc as [_ ->].
    change (length clusterColors) with 7.
    destruct (nth_lookup_or_length clusterColors (ClusterData.id c mod 7) EmptyString)
      as [H|H]; [exact H|].
    pose proof (Nat.mod_upper_bound (ClusterData.id c) 7). simpl in H. lia. }
  split; [by apply Forall_forall|].
  intros Hk.
  assert (Hsmall : forall c, c ∈ kMeansCluster rng rs k -> ClusterData.id c mod 7 = ClusterData.id c).
  { intros c Hc. apply kMeansCluster_elem in Hc as [Hid _]. unfold rounds in Hid.
    apply Nat.mod_small. lia. }
  assert (Hids : NoDup (map ClusterData.id (kMeansCluster rng rs k))).
  { unfold kMeansCluster. destruct (Nat.eqb _ _); [constructor|].
    unfold assemble. rewrite assemble_ids. apply NoDup_filter, NoDup_seq. }
  revert Hlook Hsmall Hids. generalize (kMeansCluster rng rs k). intros out.
  induction out as [|c out IH]; intros Hlook Hsmall Hids; simpl; [constructor|].
  simpl in Hids. apply NoDup_cons in Hids as [Hc Hids]. apply NoDup_cons. split.
  - intros Hin. apply Hc.
    change (map ClusterData.color out) with (ClusterData.color <$> out) in Hin.
    apply list_elem_of_fmap in Hin as (c' & Hcol & Hc').
    assert (Hsame : ClusterData.id c = ClusterData.id c').
    { pose proof (Hlook c ltac:(apply elem_of_cons; by left)) as H1.
      pose proof (Hlook c' ltac:(apply elem_of_cons; by right)) as H2.
      rewrite Hsmall in H1 by (apply elem_of_cons; by left).
      rewrite Hsmall in H2 by (apply elem_of_cons; by right).
      rewrite Hcol in H1. eapply NoDup_lookup; [apply clusterColors_NoDup|exact H1|exact H2]. }
    rewrite Hsame. by apply (list_elem_of_fmap_2 ClusterData.id).
  - apply IH; [|  |done].
    + intros c' Hc'. apply Hlook. apply elem_of_cons; by right.
    + intros c' Hc'. apply Hsmall. apply elem_of_cons; by right.
Qed.

Lemma kMeansCluster_colours_witness :
  Forall (fun c => clusterColors !! (ClusterData.id c mod 7) = Some (ClusterData.color c))
    (kMeansCluster sampleDraws twoPlaces 2) /\
  NoDup (map ClusterData.color (kMeansCluster sampleDraws twoPlaces 2)).
Proof.
  destruct (kMeansCluster_colours sampleDraws twoPlaces 2) as [H1 H2].
  split; [exact H1|]. apply H2. lia.
Defined.

(** ** The engine reads the positions alone *)

Lemma getBounds_positions rs1 rs2 :
  map position rs1 = map position rs2 -> getBounds rs1 = getBounds rs2.
Proof.
  intros H. unfold getBounds.
  assert (Hlat : map Restaurant.lat rs1 = map Restaurant.lat rs2).
  { apply (f_equal (map fst)) in H. by rewrite !map_map in H. }
  assert (Hlon : map Restaurant.lon rs1 = map Restaurant.lon rs2).
  { apply (f_equal (map snd)) in H. by rewrite !map_map in H. }
  by rewrite Hlat, Hlon.
Qed.

Lemma assignStep_positions rs1 rs2 cs :
  map position rs1 = map position rs2 -> assignStep rs1 cs = assignStep rs2 cs.
Proof.
  intros H. unfold assignStep.
  rewrite <- (map_map position (fun p => nearest p cs) rs1).
  rewrite <- (map_map position (fun p => nearest p cs) rs2). by rewrite H.
Qed.

Lemma clusterMembers_positions rs1 rs2 a i :
  map position rs1 = map position rs2 ->
  map position (clusterMembers rs1 a i) = map position (clusterMembers rs2 a i).
Proof.
  intros H. unfold clusterMembers, Array_filter.
  rewrite !(map_filter_from position (fun idx => index_is a idx i)). by rewrite H.
Qed.

Lemma updateCentroids_positions rs1 rs2 a k cs :
  map position rs1 = map position rs2 ->
  updateCentroids rs1 a k cs = updateCentroids rs2 a k cs.
Proof.
  intros H. unfold updateCentroids. generalize (seq 0 (rounds k)).
  intros ks. revert cs. induction ks as [|i ks IH]; intros cs; simpl; [done|].
  rewrite IH. f_equal. unfold updateCentroid.
  pose proof (clusterMembers_positions rs1 rs2 a i H) as Hm.
  rewrite (meanPosition_positions _ _ Hm).
  apply (f_equal length) in Hm. rewrite !length_map in Hm. by rewrite Hm.
Qed.

Lemma kMeansLoop_positions remaining rs1 rs2 k st :
  map position rs1 = map position rs2 ->
  kMeansLoop remaining rs1 k st = kMeansLoop remaining rs2 k st.
Proof.
  intros H. revert st. induction remaining as [|remaining IH]; intros st; [done|].
  cbn [kMeansLoop]. rewrite (assignStep_positions rs1 rs2 _ H).
  destruct (converged _ _); [done|].
  by rewrite IH, (updateCentroids_positions rs1 rs2 _ _ _ H).
Qed.

Lemma finalState_positions rng rs1 rs2 k :
  map position rs1 = map position rs2 -> finalState rng rs1 k = finalState rng rs2 k.
Proof.
  intros H. unfold finalState, runLoop, initialState.
  rewrite (getBounds_positions rs1 rs2 H), (kMeansLoop_positions _ rs1 rs2 _ _ H).
  apply (f_equal length) in H. rewrite !length_map in H. by rewrite H.
Qed.

(** X5: two inputs with the same sequence of positions, whatever their
    ids, names, cuisines, zones and cluster fields, end the loop in the
    same state and give clusters with the same ids, centres and colours,
    whose members have the same positions. *)
Theorem kMeansCluster_reads_positions_only rng rs1 rs2 k :
  map position rs1 = map position rs2 ->
  finalState rng rs1 k = finalState rng rs2 k /\
  Forall2 (fun c1 c2 =>
             ClusterData.id c1 = ClusterData.id c2 /\
             ClusterData.center c1 = ClusterData.center c2 /\
             ClusterData.color c1 = ClusterData.color c2 /\
             map position (ClusterData.restaurants c1)
               = map position (ClusterData.restaurants c2))
    (kMeansCluster rng rs1 k) (kMeansCluster rng rs2 k).
Proof.
  intros H. pose proof (finalState_positions rng rs1 rs2 k H) as Hst.
  split; [exact Hst|].
  assert (Hlen : length rs1 = length rs2).
  { apply (f_equal length) in H. by rewrite !length_map in H. }
  unfold kMeansCluster. rewrite Hlen, Hst. destruct (Nat.eqb _ _); [constructor|].
  unfold assemble. generalize (seq 0 (rounds k)). intros ks.
  induction ks as [|i ks IH]; simpl; [constructor|].
  apply Forall2_app; [|exact IH].
  unfold clusterAt. rewrite !taggedMembers_clusterMembers, !length_map.
  pose proof (clusterMembers_positions rs1 rs2 (assignments (finalState rng rs2 k)) i H) as Hm.
  pose proof (f_equal length Hm) as Hl. rewrite !length_map in Hl. rewrite Hl.
  destruct (Nat.ltb 0 _); constructor; [|constructor].
  simpl. repeat split. rewrite !map_map. simpl. exact Hm.
Qed.

Lemma kMeansCluster_reads_positions_only_witness :
  finalState sampleDraws twoPlaces 2
    = finalState sampleDraws (map (Restaurant.with_cluster 3) twoPlaces) 2 /\
  Forall2 (fun c1 c2 =>
             ClusterData.id c1 = ClusterData.id c2 /\
             ClusterData.center c1 = ClusterData.center c2 /\
             ClusterData.color c1 = ClusterData.color c2 /\
             map position (ClusterData.restaurants c1)
               = map position (ClusterData.restaurants c2))
    (kMeansCluster sampleDraws twoPlaces 2)
    (kMeansCluster sampleDraws (map (Restaurant.with_cluster 3) twoPlaces) 2).
Proof.
  apply (kMeansCluster_reads_positions_only sampleDraws twoPlaces
           (map (Restaurant.with_cluster 3) twoPlaces) 2).
  reflexivity.
Defined.

(** ** The bounding box *)

Lemma SFcompare_eq_not_lt a b z :
  SFcompare a z = Some Eq -> SFcompare b z = Some Eq -> SFcompare a b <> Some Lt.
Proof. intros Ha Hb. sf_cases. Qed.

Lemma ltb_zeros x y :
  PrimFloat.is_zero x = true -> PrimFloat.is_zero y = true -> PrimFloat.ltb x y = false.
Proof.
  unfold PrimFloat.is_zero. rewrite !FloatAxioms.eqb_spec. unfold SFeqb.
  intros Hx Hy. apply ltb_false_spec.
  apply (SFcompare_eq_not_lt _ _ (Prim2SF PrimFloat.zero)).
  - destruct (SFcompare (Prim2SF x) _) as [[| |]|]; done.
  - destruct (SFcompare (Prim2SF y) _) as [[| |]|]; done.
Qed.

(** The fold of [Math.min] entered with the running value [lo]: on
    numbers it ends with a number that is above none of them. *)
Lemma Math_min_fold xs lo :
  PrimFloat.is_nan lo = false -> Forall (fun x => PrimFloat.is_nan x = false) xs ->
  let step := fun lowest x =>
    if PrimFloat.is_nan lowest || PrimFloat.is_nan x then PrimFloat.nan
    else if is_neg_zero x && is_pos_zero lowest then x
    else if PrimFloat.ltb x lowest then x else lowest in
  PrimFloat.is_nan (fold_left step xs lo) = false /\
  PrimFloat.ltb lo (fold_left step xs lo) = false /\
  Forall (fun x => PrimFloat.ltb x (fold_left step xs lo) = false) xs.
Proof.
  intros Hlo Hxs step. revert lo Hlo.
  induction Hxs as [|x xs Hx _ IH]; intros lo Hlo; simpl.
  - split; [done|]. split; [apply ltb_irrefl|constructor].
  - assert (Hstep : PrimFloat.is_nan (step lo x) = false /\
                    PrimFloat.ltb lo (step lo x) = false /\
                    PrimFloat.ltb x (step lo x) = false).
    { unfold step. rewrite Hlo, Hx. simpl.
      destruct (is_neg_zero x && is_pos_zero lo) eqn:Ez.
      - apply andb_prop in Ez as [Ex El].
        apply andb_prop in Ex as [Ex _]. apply andb_prop in El as [El _].
        split; [done|]. split; [by apply ltb_zeros|apply ltb_irrefl].
      - destruct (PrimFloat.ltb x lo) eqn:E.
        + split; [done|]. split; [by apply ltb_asym|apply ltb_irrefl].
        + split; [done|]. split; [apply ltb_irrefl|done]. }
    destruct Hstep as (Hn & Hl & Hxl).
    destruct (IH (step lo x) Hn) as (Hr & Hlr & Hall).
    split; [done|]. split; [|constructor; [|done]].
    + by apply (ltb_false_trans _ (step lo x)).
    + by apply (ltb_false_trans _ (step lo x)).
Qed.

Lemma Math_max_fold xs hi :
  PrimFloat.is_nan hi = false -> Forall (fun x => PrimFloat.is_nan x = false) xs ->
  let step := fun highest x =>
    if PrimFloat.is_nan highest || PrimFloat.is_nan x then PrimFloat.nan
    else if is_pos_zero x && is_neg_zero highest then x
    else if PrimFloat.ltb highest x then x else highest in
  PrimFloat.is_nan (fold_left step xs hi) = false /\
  PrimFloat.ltb (fold_left step xs hi) hi = false /\
  Forall (fun x => PrimFloat.ltb (fold_left step xs hi) x = false) xs.
Proof.
  intros Hhi Hxs step. revert hi Hhi.
  induction Hxs as [|x xs Hx _ IH]; intros hi Hhi; simpl.
  - split; [done|]. split; [apply ltb_irrefl|constructor].
  - assert (Hstep : PrimFloat.is_nan (step hi x) = false /\
                    PrimFloat.ltb (step hi x) hi = false /\
                    PrimFloat.ltb (step hi x) x = false).
    { unfold step. rewrite Hhi, Hx. simpl.
      destruct (is_pos_zero x && is_neg_zero hi) eqn:Ez.
      - apply andb_prop in Ez as [Ex El].
        apply andb_prop in Ex as [Ex _]. apply andb_prop in El as [El _].
        split; [done|]. split; [by apply ltb_zeros|apply ltb_irrefl].
      - destruct (PrimFloat.ltb hi x) eqn:E.
        + split; [done|]. split; [by apply ltb_asym|apply ltb_irrefl].
        + split; [done|]. split; [apply ltb_irrefl|done]. }
    destruct Hstep as (Hn & Hl & Hxl).
    destruct (IH (step hi x) Hn) as (Hr & Hlr & Hall).
    split; [done|]. split; [|constructor; [|done]].
    + by apply (ltb_false_trans _ (step hi x)).
    + by apply (ltb_false_trans _ (step hi x)).
Qed.

Lemma Math_min_below xs :
  Forall (fun x => PrimFloat.is_nan x = false) xs ->
  PrimFloat.is_nan (Math_min xs) = false /\
  Forall (fun x => PrimFloat.leb (Math_min xs) x = true) xs.
Proof.
  intros Hxs. destruct (Math_min_fold xs PrimFloat.infinity eq_refl Hxs) as (Hn & _ & Hall).
  split; [exact Hn|]. rewrite Forall_forall in Hall, Hxs |- *.
  intros x Hx. apply leb_of_not_ltb; [by apply Hxs|exact Hn|by apply Hall].
Qed.

Lemma Math_max_above xs :
  Forall (fun x => PrimFloat.is_nan x = false) xs ->
  PrimFloat.is_nan (Math_max xs) = false /\
  Forall (fun x => PrimFloat.leb x (Math_max xs) = true) xs.
Proof.
  intros Hxs. destruct (Math_max_fold xs PrimFloat.neg_infinity eq_refl Hxs) as (Hn & _ & Hall).
  split; [exact Hn|]. rewrite Forall_forall in Hall, Hxs |- *.
  intros x Hx. apply leb_of_not_ltb; [exact Hn|by apply Hxs|by apply Hall].
Qed.

Lemma getBounds_box rs :
  Forall (fun r => PrimFloat.is_nan (Restaurant.lat r) = false /\
                   PrimFloat.is_nan (Restaurant.lon r) = false) rs ->
  Forall (fun r =>
            PrimFloat.leb (minLat (getBounds rs)) (Restaurant.lat r) = true /\
            PrimFloat.leb (Restaurant.lat r) (maxLat (getBounds rs)) = true /\
            PrimFloat.leb (minLon (getBounds rs)) (Restaurant.lon r) = true /\
            PrimFloat.leb (Restaurant.lon r) (maxLon (getBounds rs)) = true) rs.
Proof.
  intros H.
  assert (Hlat : Forall (fun x => PrimFloat.is_nan x = false) (map Restaurant.lat rs)).
  { apply Forall_fmap. eapply Forall_impl; [exact H|]. by intros r [? _]. }
  assert (Hlon : Forall (fun x => PrimFloat.is_nan x = false) (map Restaurant.lon rs)).
  { apply Forall_fmap. eapply Forall_impl; [exact H|]. by intros r [_ ?]. }
  destruct (Math_min_below _ Hlat) as [_ H1]. destruct (Math_max_above _ Hlat) as [_ H2].
  destruct (Math_min_below _ Hlon) as [_ H3]. destruct (Math_max_above _ Hlon) as [_ H4].
  apply Forall_fmap in H1, H2, H3, H4. rewrite Forall_forall in H1, H2, H3, H4.
  apply Forall_forall. intros r Hr. unfold getBounds. simpl.
  repeat split; [by apply H1|by apply H2|by apply H3|by apply H4].
Qed.

(** X6: when no coordinate is NaN, every restaurant lies in the box that
    the bounds of [getBounds] span. *)
Theorem getBounds_contains rs :
  Forall (fun r => PrimFloat.is_nan (Restaurant.lat r) = false /\
                   PrimFloat.is_nan (Restaurant.lon r) = false) rs ->
  Forall (fun r =>
            PrimFloat.leb (minLat (getBounds rs)) (Restaurant.lat r) = true /\
            PrimFloat.leb (Restaurant.lat r) (maxLat (getBounds rs)) = true /\
            PrimFloat.leb (minLon (getBounds rs)) (Restaurant.lon r) = true /\
            PrimFloat.leb (Restaurant.lon r) (maxLon (getBounds rs)) = true) rs.
Proof. exact (getBounds_box rs). Qed.

Lemma getBounds_contains_witness :
  Forall (fun r =>
            PrimFloat.leb (minLat (getBounds twoPlaces)) (Restaurant.lat r) = true /\
            PrimFloat.leb (Restaurant.lat r) (maxLat (getBounds twoPlaces)) = true /\
            PrimFloat.leb (minLon (getBounds twoPlaces)) (Restaurant.lon r) = true /\
            PrimFloat.leb (Restaurant.lon r) (maxLon (getBounds twoPlaces)) = true) twoPlaces.
Proof. apply (getBounds_contains twoPlaces). repeat constructor. Defined.

(** ** A first assignment step that finds only index 0 *)

Lemma flat_map_clusterAt_nil rs st ks :
  (forall i, i ∈ ks -> memberIndices (length rs) (assignments st) i = []) ->
  flat_map (clusterAt rs st) ks = [].
Proof.
  induction ks as [|i ks IH]; intros H; simpl; [done|].
  rewrite IH by (intros j Hj; apply H, elem_of_cons; by right).
  destruct (clusterAt_cases rs st i) as [[E _]|(c & _ & _ & Hpos & Hm)]; [by rewrite E|].
  rewrite Hm, length_taggedMembers, H in Hpos by (apply elem_of_cons; by left).
  simpl in Hpos. lia.
Qed.

Lemma finalState_stops_at_once rng rs k :
  assignStep rs (initialCentroids rng (getBounds rs) k) = replicate (length rs) 0 ->
  assignments (finalState rng rs k) = replicate (length rs) 0 /\
  centroids (finalState rng rs k) = initialCentroids rng (getBounds rs) k /\
  iterations (finalState rng rs k) = 0.
Proof. exact (runLoop_stops_at_once rs k (initialCentroids rng (getBounds rs) k)). Qed.

(** The call when the first assignment step gives every restaurant the
    index 0, which is also the initial content of [assignments]. *)
Lemma kMeansCluster_all_zero rng rs k :
  rs <> [] -> (0 < k)%Z ->
  assignStep rs (initialCentroids rng (getBounds rs) k) = replicate (length rs) 0 ->
  iterations (finalState rng rs k) = 0 /\
  kMeansCluster rng rs k =
    [ClusterData.mk 0 (initialCentroid rng (getBounds rs) 0)
       (map (Restaurant.with_cluster 0) rs) "#e91e63"].
Proof.
  intros Hrs Hk Hstep.
  destruct (finalState_stops_at_once rng rs k Hstep) as (Ha & Hc & Hit).
  split; [exact Hit|].
  rewrite kMeansCluster_unfold by done. unfold assemble.
  destruct (rounds k) as [|K] eqn:EK; [unfold rounds in EK; lia|].
  cbn [seq flat_map]. rewrite flat_map_clusterAt_nil.
  - rewrite app_nil_r. unfold clusterAt, Array_filter. rewrite Ha, Hc.
    rewrite filter_from_all.
    + rewrite length_map. destruct rs; [done|].
      unfold initialCentroids. rewrite EK. reflexivity.
    + intros x j Hj. rewrite length_map in Hj.
      apply index_is_true, lookup_replicate_2. lia.
  - intros i Hi. apply elem_of_seq in Hi.
    destruct (memberIndices _ _ i) as [|j js] eqn:E; [done|].
    assert (Hj : j ∈ memberIndices (length rs) (assignments (finalState rng rs k)) i).
    { rewrite E. apply elem_of_cons; by left. }
    apply elem_of_memberIndices in Hj as [_ Hj].
    rewrite Ha in Hj. apply lookup_replicate in Hj as [Hj _]. lia.
Qed.

(** X7: the loop compares the first assignment with an array of zeros, so
    whenever the first assignment step gives every restaurant index 0 the
    call makes no update: for a positive [k] it returns one cluster of id 0
    with all the restaurants, whose centre is the first centroid drawn. *)
Theorem kMeansCluster_stops_on_all_zero rng rs k :
  rs <> [] -> (0 < k)%Z ->
  assignStep rs (initialCentroids rng (getBounds rs) k) = replicate (length rs) 0 ->
  iterations (finalState rng rs k) = 0 /\
  kMeansCluster rng rs k =
    [ClusterData.mk 0 (initialCentroid rng (getBounds rs) 0)
       (map (Restaurant.with_cluster 0) rs) "#e91e63"].
Proof. exact (kMeansCluster_all_zero rng rs k). Qed.

(** Three centroids drawn at (2.5, 2.5): both restaurants are nearest to
    the first one. *)
Lemma kMeansCluster_stops_on_all_zero_witness :
  iterations (finalState (constantDraws 0.25%float) twoPlaces 3) = 0 /\
  kMeansCluster (constantDraws 0.25%float) twoPlaces 3 =
    [ClusterData.mk 0 (initialCentroid (constantDraws 0.25%float) (getBounds twoPlaces) 0)
       (map (Restaurant.with_cluster 0) twoPlaces) "#e91e63"].
Proof.
  apply (kMeansCluster_stops_on_all_zero (constantDraws 0.25%float) twoPlaces 3).
  - discriminate.
  - lia.
  - reflexivity.
Defined.

(** ** NaN coordinates *)

Lemma SFcompare_refl x : x <> S754_nan -> SFcompare x x = Some Eq.
Proof. intros Hx. sf_cases. Qed.

Lemma is_nan_true x : PrimFloat.is_nan x = true -> x = PrimFloat.nan.
Proof.
  unfold PrimFloat.is_nan. rewrite FloatAxioms.eqb_spec. unfold SFeqb. intros H.
  rewrite <- (SF2Prim_Prim2SF x).
  destruct (Prim2SF x) eqn:E; try reflexivity;
    rewrite SFcompare_refl in H by discriminate; discriminate.
Qed.

Lemma Prim2SF_nan_eq x : Prim2SF x = S754_nan -> x = PrimFloat.nan.
Proof. intros H. rewrite <- (SF2Prim_Prim2SF x), H. reflexivity. Qed.


Lemma sub_nan_l x : PrimFloat.sub PrimFloat.nan x = PrimFloat.nan.
Proof.
  apply Prim2SF_nan_eq. rewrite FloatAxioms.sub_spec.
  change (Prim2SF PrimFloat.nan) with S754_nan. reflexivity.
Qed.




Lemma mul_nan_r x : PrimFloat.mul x PrimFloat.nan = PrimFloat.nan.
Proof.
  apply Prim2SF_nan_eq. rewrite FloatAxioms.mul_spec.
  change (Prim2SF PrimFloat.nan) with S754_nan. by destruct (Prim2SF x).
Qed.



Lemma Math_max_nan xs :
  Exists (fun x => PrimFloat.is_nan x = true) xs -> Math_max xs = PrimFloat.nan.
Proof.
  unfold Math_max. generalize PrimFloat.neg_infinity.
  assert (Hnan : forall ys, fold_left
            (fun highest x =>
               if PrimFloat.is_nan highest || PrimFloat.is_nan x then PrimFloat.nan
               else if is_pos_zero x && is_neg_zero highest then x
               else if PrimFloat.ltb highest x then x else highest) ys PrimFloat.nan
            = PrimFloat.nan).
  { induction ys as [|y ys IH]; simpl; [done|exact IH]. }
  intros hi H. revert hi. induction H as [x xs Hx|x xs _ IH]; intros hi; simpl.
  - rewrite Hx, orb_true_r. apply Hnan.
  - apply IH.
Qed.







(** * The Dashboard filters *)

Lemma elem_of_filter_from {A : Type} (f : A -> bool) s (l : list A) x :
  x ∈ filter_from (fun y _ => f y) s l <-> x ∈ l /\ f x = true.
Proof.
  revert s. induction l as [|y l IH]; intros s; simpl.
  - split; [intros H; by apply elem_of_nil in H|intros [H _]; by apply elem_of_nil in H].
  - destruct (f y) eqn:E; rewrite ?elem_of_cons, IH, ?elem_of_cons.
    + split; [intros [->|[? ?]]; auto|intros [[->|?] ?]; auto].
    + split; [intros [? ?]; auto|intros [[->|?] ?]; [congruence|auto]].
Qed.

Lemma sublist_filter_from {A : Type} (f : A -> nat -> bool) s (l : list A) :
  sublist (filter_from f s l) l.
Proof.
  revert s. induction l as [|y l IH]; intros s; simpl; [constructor|].
  destruct (f y s); [apply sublist_skip|apply sublist_cons]; apply IH.
Qed.

Lemma filter_from_filter_from {A : Type} (f g : A -> bool) s t (l : list A) :
  filter_from (fun y _ => g y) t (filter_from (fun y _ => f y) s l)
  = filter_from (fun y _ => f y && g y) s l.
Proof.
  revert s t. induction l as [|y l IH]; intros s t; simpl; [done|].
  destruct (f y); simpl; [|apply IH]. destruct (g y); [f_equal|]; apply IH.
Qed.

Lemma filter_from_ext {A : Type} (f g : A -> bool) s t (l : list A) :
  (forall y, f y = g y) ->
  filter_from (fun y _ => f y) s l = filter_from (fun y _ => g y) t l.
Proof.
  intros H. revert s t. induction l as [|y l IH]; intros s t; simpl; [done|].
  rewrite H, (IH (S s) (S t)). done.
Qed.

Lemma field_is_true v selected : field_is v selected = true <-> v = Some selected.
Proof.
  destruct v as [s|]; simpl; [|split; discriminate].
  rewrite String.eqb_eq. split; congruence.
Qed.

(** X9: the restaurants shown are a subsequence of the input, in input
    order; a restaurant is shown exactly when each selection is ['all'] or
    equals its field (a restaurant without the field is hidden by every
    other selection); with both selections at ['all'], the state
    [clearFilters] sets, all restaurants are shown. *)
Theorem filteredRestaurants_shown restaurants selectedCuisine selectedZone :
  sublist (filteredRestaurants restaurants selectedCuisine selectedZone) restaurants /\
  (forall r, r ∈ filteredRestaurants restaurants selectedCuisine selectedZone <->
     r ∈ restaurants /\
     (selectedCuisine = "all"%string \/ Restaurant.cuisine r = Some selectedCuisine) /\
     (selectedZone = "all"%string \/ Restaurant.zone r = Some selectedZone)) /\
  filteredRestaurants restaurants "all" "all" = restaurants /\
  hasActiveFilters "all" "all" = false.
Proof.
  split; [apply sublist_filter_from|]. split; [|split; [|reflexivity]].
  - intros r. unfold filteredRestaurants, Array_filter.
    rewrite (elem_of_filter_from
               (fun restaurant =>
                  (String.eqb selectedCuisine "all"
                   || field_is (Restaurant.cuisine restaurant) selectedCuisine)
                  && (String.eqb selectedZone "all"
                      || field_is (Restaurant.zone restaurant) selectedZone))).
    rewrite andb_true_iff, !orb_true_iff, !String.eqb_eq, !field_is_true. tauto.
  - apply filter_from_all. intros x j _. reflexivity.
Qed.

(** X10: the two selections act independently: filtering by both equals
    filtering by the cuisine and then by the zone, or the other way round,
    and filtering the shown restaurants again changes nothing. *)
Theorem filteredRestaurants_compose restaurants selectedCuisine selectedZone :
  filteredRestaurants (filteredRestaurants restaurants selectedCuisine "all") "all" selectedZone
    = filteredRestaurants restaurants selectedCuisine selectedZone /\
  filteredRestaurants (filteredRestaurants restaurants "all" selectedZone) selectedCuisine "all"
    = filteredRestaurants restaurants selectedCuisine selectedZone /\
  filteredRestaurants (filteredRestaurants restaurants selectedCuisine selectedZone)
      selectedCuisine selectedZone
    = filteredRestaurants restaurants selectedCuisine selectedZone.
Proof.
  unfold filteredRestaurants, Array_filter. repeat split.
  - rewrite (filter_from_filter_from
               (fun r => (String.eqb selectedCuisine "all"
                          || field_is (Restaurant.cuisine r) selectedCuisine)
                         && (String.eqb "all" "all" || field_is (Restaurant.zone r) "all"))
               (fun r => (String.eqb "all" "all" || field_is (Restaurant.cuisine r) "all")
                         && (String.eqb selectedZone "all"
                             || field_is (Restaurant.zone r) selectedZone))).
    apply filter_from_ext. intros r. simpl. by rewrite andb_true_r.
  - rewrite (filter_from_filter_from
               (fun r => (String.eqb "all" "all" || field_is (Restaurant.cuisine r) "all")
                         && (String.eqb selectedZone "all"
                             || field_is (Restaurant.zone r) selectedZone))
               (fun r => (String.eqb selectedCuisine "all"
                          || field_is (Restaurant.cuisine r) selectedCuisine)
                         && (String.eqb "all" "all" || field_is (Restaurant.zone r) "all"))).
    apply filter_from_ext. intros r. simpl. rewrite andb_true_r. apply andb_comm.
  - rewrite (filter_from_filter_from
               (fun r => (String.eqb selectedCuisine "all"
                          || field_is (Restaurant.cuisine r) selectedCuisine)
                         && (String.eqb selectedZone "all"
                             || field_is (Restaurant.zone r) selectedZone))
               (fun r => (String.eqb selectedCuisine "all"
                          || field_is (Restaurant.cuisine r) selectedCuisine)
                         && (String.eqb selectedZone "all"
                             || field_is (Restaurant.zone r) selectedZone))).
    apply filter_from_ext. intros r. apply andb_diag.
Qed.

(** ** The options of the selectors *)





#[local] Instance String_leb_total : Total (fun a b => Is_true (String.leb a b)).
Proof.
  intros a b. destruct (String.leb_total a b) as [H|H]; rewrite H; [left|right]; exact I.
Qed.




(** * The CSV rows *)

Lemma decimal_inj n m : decimal n = decimal m -> n = m.
Proof.
  unfold decimal. intros H.
  assert (Hnn : forall k, Nat.to_uint k <> Decimal.Nil).
  { intros k. rewrite <- (DecimalNat.Unsigned.of_to k) at 1.
    rewrite DecimalNat.Unsigned.to_of. apply DecimalFacts.unorm_nonnil. }
  apply DecimalNat.Unsigned.to_uint_inj.
  pose proof (NilZero.usu (Nat.to_uint n) (Hnn n)) as Hn.
  pose proof (NilZero.usu (Nat.to_uint m) (Hnn m)) as Hm.
  rewrite H in Hn. congruence.
Qed.

Lemma truthy_orChain_last operands t :
  t <> EmptyString -> truthy (orChain (operands ++ [Some t])) = true.
Proof.
  intros Ht. induction operands as [|v operands IH]; simpl.
  - by apply negb_true_iff, String.eqb_neq.
  - destruct (operands ++ [Some t]) eqn:E; [by destruct operands|].
    destruct (truthy v) eqn:Ev; [exact Ev|exact IH].
Qed.

Lemma truthy_String_of v : truthy v = true -> String_of v <> EmptyString.
Proof.
  destruct v as [s|]; simpl; [|discriminate].
  intros H. by apply String.eqb_neq, negb_true_iff.
Qed.

Lemma optionalText_nonempty v : optionalText v <> Some EmptyString.
Proof.
  unfold optionalText. destruct (truthy v) eqn:E; [|discriminate].
  intros [= H]. by apply truthy_String_of in E.
Qed.

(** What a converted row looks like. *)
Lemma rowToRestaurant_Resolved parseNumber row index r :
  rowToRestaurant parseNumber row index = Resolved r ->
  Restaurant.id r = ("restaurant-" ++ decimal index)%string /\
  Restaurant.lat r = parseFloat parseNumber (orChain (map (column row) latColumns)) /\
  Restaurant.lon r = parseFloat parseNumber (orChain (map (column row) lonColumns)) /\
  PrimFloat.is_nan (Restaurant.lat r) = false /\
  PrimFloat.is_nan (Restaurant.lon r) = false /\
  Restaurant.name r <> EmptyString /\
  Restaurant.cuisine r <> Some EmptyString /\
  Restaurant.zone r <> Some EmptyString /\
  Restaurant.cluster r = None.
Proof.
  unfold rowToRestaurant.
  destruct (PrimFloat.is_nan _ || PrimFloat.is_nan _) eqn:E; [discriminate|].
  apply orb_false_elim in E as [E1 E2]. intros [= <-].
  cbn [Restaurant.id Restaurant.lat Restaurant.lon Restaurant.name Restaurant.cuisine
       Restaurant.zone Restaurant.cluster].
  repeat split; try done; try apply optionalText_nonempty.
  apply truthy_String_of,
    (truthy_orChain_last (map (column row) nameColumns)
       ("Restaurant " ++ decimal (index + 1))%string).
  discriminate.
Qed.

Lemma rowToRestaurant_Rejected parseNumber row index e :
  rowToRestaurant parseNumber row index = Rejected e ->
  e = InvalidCoordinates (index + 1)
        (parseFloat parseNumber (orChain (map (column row) latColumns)))
        (parseFloat parseNumber (orChain (map (column row) lonColumns))) /\
  PrimFloat.is_nan (parseFloat parseNumber (orChain (map (column row) latColumns)))
  || PrimFloat.is_nan (parseFloat parseNumber (orChain (map (column row) lonColumns))) = true.
Proof.
  unfold rowToRestaurant.
  destruct (PrimFloat.is_nan _ || PrimFloat.is_nan _) eqn:E; [|discriminate].
  by intros [= <-].
Qed.

Lemma mapRows_Resolved parseNumber rows index rs :
  mapRows parseNumber rows index = Resolved rs ->
  Forall2 (fun '(j, row) r => rowToRestaurant parseNumber row j = Resolved r)
    (zip (seq index (length rows)) rows) rs.
Proof.
  revert index rs. induction rows as [|row rows IH]; intros index rs; simpl.
  - intros [= <-]. constructor.
  - destruct (rowToRestaurant parseNumber row index) as [r|e] eqn:E; [|discriminate].
    destruct (mapRows parseNumber rows (S index)) as [rs'|e] eqn:E'; [|discriminate].
    intros [= <-]. constructor; [exact E|by apply IH].
Qed.

Lemma mapRows_Rejected parseNumber rows index e :
  mapRows parseNumber rows index = Rejected e ->
  exists j row,
    rows !! j = Some row /\
    rowToRestaurant parseNumber row (index + j) = Rejected e /\
    forall j' row', j' < j -> rows !! j' = Some row' ->
      exists r, rowToRestaurant parseNumber row' (index + j') = Resolved r.
Proof.
  revert index. induction rows as [|row rows IH]; intros index; simpl; [discriminate|].
  destruct (rowToRestaurant parseNumber row index) as [r|e'] eqn:E.
  - destruct (mapRows parseNumber rows (S index)) as [rs'|e'] eqn:E'; [discriminate|].
    intros [= ->]. destruct (IH (S index) E') as (j & row' & Hj & Hrej & Hbefore).
    exists (S j), row'. split; [done|]. split.
    + by replace (index + S j) with (S index + j) by lia.
    + intros [|j'] row'' Hlt Hrow; simpl in Hrow.
      * injection Hrow as <-. rewrite Nat.add_0_r. eauto.
      * replace (index + S j') with (S index + j') by lia.
        apply (Hbefore j'); [lia|done].
  - intros [= ->]. exists 0, row. split; [done|]. rewrite Nat.add_0_r.
    split; [done|]. intros j' row' Hlt. lia.
Qed.

Lemma rowToRestaurant_numeric parseNumber row index :
  numericCoordinates parseNumber row = true <->
  exists r, rowToRestaurant parseNumber row index = Resolved r.
Proof.
  unfold numericCoordinates, rowToRestaurant.
  destruct (PrimFloat.is_nan _ || PrimFloat.is_nan _); simpl.
  - split; [discriminate|intros [r H]; discriminate].
  - split; [eauto|done].
Qed.

Lemma mapRows_numeric parseNumber rows index :
  Forall (fun row => numericCoordinates parseNumber row = true) rows <->
  exists rs, mapRows parseNumber rows index = Resolved rs.
Proof.
  revert index. induction rows as [|row rows IH]; intros index; simpl.
  - split; [eauto|constructor].
  - rewrite Forall_cons, (rowToRestaurant_numeric parseNumber row index), (IH (S index)).
    destruct (rowToRestaurant parseNumber row index) as [r|e].
    + destruct (mapRows parseNumber rows (S index)) as [rs|e].
      * split; eauto.
      * split; [intros [_ [rs H]]; discriminate|intros [rs H]; discriminate].
    + split; [intros [[r H] _]; discriminate|intros [rs H]; discriminate].
Qed.

(** X13: the promise resolves exactly when there is at least one row and
    every row has a latitude and a longitude that read as numbers; without
    rows it is rejected for lack of data. *)
Theorem parseCSVData_resolves_iff parseNumber data :
  ((exists rs, parseCSVData_complete parseNumber data = Resolved rs) <->
   data <> [] /\ Forall (fun row => numericCoordinates parseNumber row = true) data) /\
  parseCSVData_complete parseNumber [] = Rejected NoData.
Proof.
  unfold parseCSVData_complete. split; [|reflexivity].
  destruct data as [|row data]; cbn [length Nat.eqb].
  - split; [intros [rs H]; discriminate|intros [H _]; done].
  - rewrite (mapRows_numeric parseNumber (row :: data) 0). split; [auto|tauto].
Qed.

(** The fields of a resolved value, row by row. *)
Lemma parseCSVData_rows parseNumber data rs :
  parseCSVData_complete parseNumber data = Resolved rs ->
  length rs = length data /\
  forall j r, rs !! j = Some r ->
    exists row, data !! j = Some row /\
      Restaurant.id r = ("restaurant-" ++ decimal j)%string /\
      Restaurant.lat r = parseFloat parseNumber (orChain (map (column row) latColumns)) /\
      Restaurant.lon r = parseFloat parseNumber (orChain (map (column row) lonColumns)) /\
      PrimFloat.is_nan (Restaurant.lat r) = false /\
      PrimFloat.is_nan (Restaurant.lon r) = false /\
      Restaurant.name r <> EmptyString /\
      Restaurant.cuisine r <> Some EmptyString /\
      Restaurant.zone r <> Some EmptyString /\
      Restaurant.cluster r = None.
Proof.
  unfold parseCSVData_complete. destruct (Nat.eqb _ _); [discriminate|].
  intros H. apply mapRows_Resolved in H.
  pose proof (Forall2_length _ _ _ H) as Hlen.
  rewrite length_zip, length_seq, Nat.min_id in Hlen. split; [done|].
  intros j r Hr.
  destruct (Forall2_lookup_r _ _ _ j r H Hr) as ([j' row] & Hz & Hconv).
  apply lookup_zip_with_Some in Hz as (j'' & row' & [= <- <-] & Hseq & Hrow).
  apply lookup_seq in Hseq as [-> _]. simpl in Hconv.
  exists row. split; [done|]. by apply rowToRestaurant_Resolved in Hconv.
Qed.

(** X14: a resolved value has one restaurant per row, in row order; the
    restaurant of row [j] (from 0) has the id [restaurant-j], the
    coordinates read from the row, which are not NaN, a non-empty name, a
    cuisine and a zone that are absent or non-empty, and no cluster. *)
Theorem parseCSVData_resolved_shape parseNumber data rs :
  parseCSVData_complete parseNumber data = Resolved rs ->
  length rs = length data /\
  forall j r, rs !! j = Some r ->
    exists row, data !! j = Some row /\
      Restaurant.id r = ("restaurant-" ++ decimal j)%string /\
      Restaurant.lat r = parseFloat parseNumber (orChain (map (column row) latColumns)) /\
      Restaurant.lon r = parseFloat parseNumber (orChain (map (column row) lonColumns)) /\
      PrimFloat.is_nan (Restaurant.lat r) = false /\
      PrimFloat.is_nan (Restaurant.lon r) = false /\
      Restaurant.name r <> EmptyString /\
      Restaurant.cuisine r <> Some EmptyString /\
      Restaurant.zone r <> Some EmptyString /\
      Restaurant.cluster r = None.
Proof. exact (parseCSVData_rows parseNumber data rs). Qed.

(** The two sample rows: the second has an empty title and an empty zone. *)
Example parseCSVData_sample :
  parseCSVData_complete sampleParse sampleRows =
    Resolved [Restaurant.mk "restaurant-0" "A" 1%float 2.5%float (Some "Thai"%string) None None;
              Restaurant.mk "restaurant-1" "Restaurant 2" 2.5%float 1%float None None None].
Proof. vm_compute. reflexivity. Qed.

Lemma parseCSVData_resolved_shape_witness :
  length [Restaurant.mk "restaurant-0" "A" 1%float 2.5%float (Some "Thai"%string) None None;
          Restaurant.mk "restaurant-1" "Restaurant 2" 2.5%float 1%float None None None]
    = length sampleRows.
Proof.
  refine (proj1 (parseCSVData_resolved_shape sampleParse sampleRows _ _)).
  vm_compute. reflexivity.
Defined.

(** X15: the ids of a resolved value are pairwise distinct. *)
Theorem parseCSVData_ids_distinct parseNumber data rs :
  parseCSVData_complete parseNumber data = Resolved rs ->
  NoDup (map Restaurant.id rs).
Proof.
  intros H. destruct (parseCSVData_rows parseNumber data rs H) as [_ Hrows].
  apply NoDup_alt. intros i j x Hi Hj.
  change (map Restaurant.id rs) with (Restaurant.id <$> rs) in Hi, Hj.
  apply list_lookup_fmap_Some in Hi as (ri & -> & Hri).
  apply list_lookup_fmap_Some in Hj as (rj & Heq & Hrj).
  destruct (Hrows i ri Hri) as (_ & _ & Hidi & _).
  destruct (Hrows j rj Hrj) as (_ & _ & Hidj & _).
  rewrite Hidi, Hidj in Heq. simpl in Heq.
  apply decimal_inj. congruence.
Qed.

Lemma parseCSVData_ids_distinct_witness :
  NoDup (map Restaurant.id
           [Restaurant.mk "restaurant-0" "A" 1%float 2.5%float (Some "Thai"%string) None None;
            Restaurant.mk "restaurant-1" "Restaurant 2" 2.5%float 1%float None None None]).
Proof.
  apply (parseCSVData_ids_distinct sampleParse sampleRows).
  vm_compute. reflexivity.
Defined.

(** X16: a rejection other than for lack of data names the first row, in
    row order and counted from 1, whose latitude or longitude does not
    read as a number, with the two values read; every row before it
    converts, and no restaurant is delivered. *)
Theorem parseCSVData_rejects_first_invalid parseNumber data e :
  parseCSVData_complete parseNumber data = Rejected e ->
  (e = NoData /\ data = []) \/
  exists j row,
    data !! j = Some row /\
    e = InvalidCoordinates (j + 1)
          (parseFloat parseNumber (orChain (map (column row) latColumns)))
          (parseFloat parseNumber (orChain (map (column row) lonColumns))) /\
    numericCoordinates parseNumber row = false /\
    forall j' row', j' < j -> data !! j' = Some row' ->
      numericCoordinates parseNumber row' = true.
Proof.
  unfold parseCSVData_complete. destruct data as [|row0 data]; cbn [length Nat.eqb].
  - intros [= <-]. by left.
  - intros H. right.
    apply mapRows_Rejected in H as (j & row & Hj & Hrej & Hbefore).
    exists j, row. split; [done|]. simpl in Hrej.
    apply rowToRestaurant_Rejected in Hrej as [-> Hnan].
    split; [done|]. split; [unfold numericCoordinates; by rewrite Hnan|].
    intros j' row' Hlt Hrow. destruct (Hbefore j' row' Hlt Hrow) as [r Hr].
    apply (rowToRestaurant_numeric parseNumber row' (0 + j')). eauto.
Qed.

(** Three rows: the second has a longitude that does not read as a number,
    the third has no coordinates at all; the second is the one named. *)
Lemma parseCSVData_rejects_first_invalid_witness :
  (InvalidCoordinates 2 2.5%float PrimFloat.nan = NoData /\ sampleBadRows = []) \/
  exists j row,
    sampleBadRows !! j = Some row /\
    InvalidCoordinates 2 2.5%float PrimFloat.nan
      = InvalidCoordinates (j + 1)
          (parseFloat sampleParse (orChain (map (column row) latColumns)))
          (parseFloat sampleParse (orChain (map (column row) lonColumns))) /\
    numericCoordinates sampleParse row = false /\
    forall j' row', j' < j -> sampleBadRows !! j' = Some row' ->
      numericCoordinates sampleParse row' = true.
Proof.
  apply (parseCSVData_rejects_first_invalid sampleParse sampleBadRows).
  vm_compute. reflexivity.
Defined.

(** X17: the restaurants of a resolved value all lie in the bounding box
    that the clustering engine computes for them: the parser hands over no
    NaN coordinate. *)
Theorem parseCSVData_within_bounds parseNumber data rs :
  parseCSVData_complete parseNumber data = Resolved rs ->
  Forall (fun r =>
            PrimFloat.leb (minLat (getBounds rs)) (Restaurant.lat r) = true /\
            PrimFloat.leb (Restaurant.lat r) (maxLat (getBounds rs)) = true /\
            PrimFloat.leb (minLon (getBounds rs)) (Restaurant.lon r) = true /\
            PrimFloat.leb (Restaurant.lon r) (maxLon (getBounds rs)) = true) rs.
Proof.
  intros H. apply getBounds_box. apply Forall_lookup. intros j r Hr.
  destruct (parseCSVData_rows parseNumber data rs H) as [_ Hrows].
  destruct (Hrows j r Hr) as (_ & _ & _ & _ & _ & Hlat & Hlon & _). done.
Qed.

Lemma parseCSVData_within_bounds_witness :
  Forall (fun r =>
            PrimFloat.leb (minLat (getBounds
              [Restaurant.mk "restaurant-0" "A" 1%float 2.5%float (Some "Thai"%string) None None;
               Restaurant.mk "restaurant-1" "Restaurant 2" 2.5%float 1%float None None None]))
              (Restaurant.lat r) = true /\
            PrimFloat.leb (Restaurant.lat r) (maxLat (getBounds
              [Restaurant.mk "restaurant-0" "A" 1%float 2.5%float (Some "Thai"%string) None None;
               Restaurant.mk "restaurant-1" "Restaurant 2" 2.5%float 1%float None None None]))
              = true /\
            PrimFloat.leb (minLon (getBounds
              [Restaurant.mk "restaurant-0" "A" 1%float 2.5%float (Some "Thai"%string) None None;
               Restaurant.mk "restaurant-1" "Restaurant 2" 2.5%float 1%float None None None]))
              (Restaurant.lon r) = true /\
            PrimFloat.leb (Restaurant.lon r) (maxLon (getBounds
              [Restaurant.mk "restaurant-0" "A" 1%float 2.5%float (Some "Thai"%string) None None;
               Restaurant.mk "restaurant-1" "Restaurant 2" 2.5%float 1%float None None None]))
              = true)
    [Restaurant.mk "restaurant-0" "A" 1%float 2.5%float (Some "Thai"%string) None None;
     Restaurant.mk "restaurant-1" "Restaurant 2" 2.5%float 1%float None None None].
Proof.
  apply (parseCSVData_within_bounds sampleParse sampleRows).
  vm_compute. reflexivity.
Defined.

(** * Google Sheets URLs *)

Lemma afterLiteral_app p s : afterLiteral p (p ++ s) = Some s.
Proof.
  induction p as [|a p IH]; simpl; [by destruct s|].
  by rewrite Ascii.eqb_refl.
Qed.

Lemma takeId_takeId s : takeId (takeId s) = takeId s.
Proof.
  induction s as [|c s IH]; simpl; [done|].
  destruct (isIdChar c) eqn:E; simpl; [|done]. by rewrite E, IH.
Qed.

Lemma takeId_app id rest :
  takeId id = id -> takeId (id ++ rest) = (id ++ takeId rest)%string.
Proof.
  induction id as [|c id IH]; simpl; [done|].
  destruct (isIdChar c); [|discriminate]. intros [= H]. by rewrite IH.
Qed.

Lemma append_empty_r s : (s ++ "")%string = s.
Proof. induction s as [|c s IH]; simpl; [done|by rewrite IH]. Qed.

Lemma matchHere_Some s id :
  matchHere s = Some id -> id <> EmptyString /\ takeId id = id.
Proof.
  unfold matchHere. destruct (afterLiteral sheetsPath s) as [rest|]; [|discriminate].
  destruct (String.eqb_spec (takeId rest) EmptyString) as [|Hne]; [discriminate|].
  intros [= <-]. split; [done|apply takeId_takeId].
Qed.

Lemma sheetsMatch_Some url id :
  sheetsMatch url = Some id -> id <> EmptyString /\ takeId id = id.
Proof.
  induction url as [|c url IH]; [discriminate|].
  cbn [sheetsMatch].
  destruct (matchHere (String c url)) as [id'|] eqn:E; [|exact IH].
  intros [= <-]. by apply matchHere_Some in E.
Qed.

(** The match on a URL that has the spreadsheet path right after
    [https://]. *)
Lemma sheetsMatch_https id rest :
  id <> EmptyString -> takeId id = id -> takeId rest = EmptyString ->
  sheetsMatch ("https://docs.google.com/spreadsheets/d/" ++ id ++ rest) = Some id.
Proof.
  intros Hne Hid Hrest.
  assert (Hhere : matchHere (sheetsPath ++ id ++ rest) = Some id).
  { unfold matchHere. rewrite afterLiteral_app, (takeId_app id rest Hid), Hrest.
    rewrite append_empty_r. by destruct (String.eqb_spec id EmptyString). }
  change ("https://docs.google.com/spreadsheets/d/" ++ id ++ rest)%string
    with ("https://" ++ (sheetsPath ++ id ++ rest))%string.
  generalize dependent (sheetsPath ++ id ++ rest)%string. intros s Hs.
  cbn. destruct s; cbn -[matchHere]; cbn -[matchHere] in Hs; by rewrite Hs.
Qed.

(** X18: a URL that has the spreadsheet path right after [https://],
    then a non-empty id of class characters, then nothing or a character
    outside the class (as in [.../d/<id>/edit#gid=0]), is converted to the
    CSV export URL of that id. *)
Theorem convertGoogleSheetsURL_edit_url id rest :
  id <> EmptyString -> takeId id = id -> takeId rest = EmptyString ->
  convertGoogleSheetsURL ("https://docs.google.com/spreadsheets/d/" ++ id ++ rest)
  = ("https://docs.google.com/spreadsheets/d/" ++ id ++ "/export?format=csv")%string.
Proof.
  intros Hne Hid Hrest. unfold convertGoogleSheetsURL.
  by rewrite (sheetsMatch_https id rest Hne Hid Hrest).
Qed.

Lemma convertGoogleSheetsURL_edit_url_witness :
  convertGoogleSheetsURL
    ("https://docs.google.com/spreadsheets/d/" ++ "1AbC-_x9" ++ "/edit#gid=0")
  = ("https://docs.google.com/spreadsheets/d/" ++ "1AbC-_x9" ++ "/export?format=csv")%string.
Proof.
  apply (convertGoogleSheetsURL_edit_url "1AbC-_x9" "/edit#gid=0");
    [discriminate|reflexivity|reflexivity].
Defined.

(** X19: converting is idempotent: the converted URL converts to itself.
    A URL without a match is returned as it is, and a URL with a match
    becomes the export URL of a non-empty id of class characters. *)
Theorem convertGoogleSheetsURL_idempotent url :
  convertGoogleSheetsURL (convertGoogleSheetsURL url) = convertGoogleSheetsURL url /\
  (convertGoogleSheetsURL url = url \/
   exists id, id <> EmptyString /\ takeId id = id /\
              convertGoogleSheetsURL url = exportURL id).
Proof.
  destruct (sheetsMatch url) as [id|] eqn:E.
  - pose proof (sheetsMatch_Some url id E) as [Hne Hid].
    assert (Hconv : convertGoogleSheetsURL url = exportURL id).
    { unfold convertGoogleSheetsURL. by rewrite E. }
    rewrite Hconv. split; [|right; by exists id].
    unfold convertGoogleSheetsURL, exportURL.
    by rewrite (sheetsMatch_https id "/export?format=csv" Hne Hid eq_refl).
  - assert (Hconv : convertGoogleSheetsURL url = url).
    { unfold convertGoogleSheetsURL. by rewrite E. }
    rewrite !Hconv. split; [done|by left].
Qed.

(** A URL that is not a Google Sheets URL is left alone, and a path
    without an id does not match. *)
Example convertGoogleSheetsURL_other :
  convertGoogleSheetsURL "https://example.com/data.csv" = "https://example.com/data.csv"%string /\
  convertGoogleSheetsURL "https://docs.google.com/spreadsheets/d//edit"
    = "https://docs.google.com/spreadsheets/d//edit"%string.
Proof. split; reflexivity. Qed.

(** * Assignment with arbitrary numbers *)

(** X20: in an assignment step over at least one centroid, whatever the
    numbers are (NaN and infinite distances included), the index given to
    a restaurant is the index of a centroid, and no centroid is strictly
    nearer to the restaurant than that one. *)
Theorem assignStep_never_passes_nearer rs cs idx r :
  cs <> [] -> rs !! idx = Some r ->
  exists a c,
    assignStep rs cs !! idx = Some a /\ cs !! a = Some c /\
    Forall (fun cj => PrimFloat.ltb (euclideanDistance (position r) cj)
                        (euclideanDistance (position r) c) = false) cs.
Proof.
  intros Hcs Hr. exists (nearest (position r) cs).
  destruct (lookup_lt_is_Some_2 cs (nearest (position r) cs)) as [c Hc].
  { pose proof (nearest_bound (position r) cs). destruct cs; [done|simpl in *; lia]. }
  exists c. split; [|split; [exact Hc|]].
  - unfold assignStep. change (map ?f rs) with (f <$> rs).
    by rewrite list_lookup_fmap, Hr.
  - apply Forall_lookup. intros j cj Hj. by apply (nearest_not_beaten _ cs c Hc j).
Qed.

(** A step where the first centroid has a NaN coordinate: the restaurant
    goes to the second one. *)
Lemma assignStep_never_passes_nearer_witness :
  exists a c,
    assignStep twoPlaces [(PrimFloat.nan, 0%float); (5%float, 5%float)] !! 0 = Some a /\
    [(PrimFloat.nan, 0%float); (5%float, 5%float)] !! a = Some c /\
    Forall (fun cj => PrimFloat.ltb (euclideanDistance (0%float, 0%float) cj)
                        (euclideanDistance (0%float, 0%float) c) = false)
      [(PrimFloat.nan, 0%float); (5%float, 5%float)].
Proof.
  apply (assignStep_never_passes_nearer twoPlaces
           [(PrimFloat.nan, 0%float); (5%float, 5%float)] 0 (place "a" 0%float 0%float)).
  - discriminate.
  - reflexivity.
Defined.
